(** * wavesurfer.js: the [CanvasEntry] tile of the MultiCanvas renderer

    A shallow embedding of [src/drawer.canvasentry.js] and of the utilities
    [src/util/absMax.js], [src/util/min.js] and [src/util/style.js], with the
    properties the specification states about them.

    Conventions of the embedding.

    - A JavaScript number is a value of [num]: an exact rational, [+Infinity],
      [-Infinity] or [NaN].  Arithmetic on finite values is exact (no
      rounding to binary64) and there is a single zero (no [-0]); the special
      values follow the IEEE 754 tables that JavaScript uses, so that a
      division by zero or [0 * Infinity] behaves as in the source.
    - A method that mutates [this] is a function from the tile to the
      mutated tile paired with the way the call completes ([Normal], [Throw]
      or [Diverge]); what was mutated before an exception stays mutated.
    - A 2D rendering context records the calls made on it, in order.  What
      those calls paint is given separately ([rectCovers], [filledPaths]),
      following the HTML canvas rules for degenerate arguments. *)

From Stdlib Require Import ZArith QArith Qcanon Qround Qabs List String Bool Lia Lqa.
Import ListNotations.

Local Open Scope Z_scope.

(** ** JavaScript numbers *)

Module JsNumber.

Inductive num : Type :=
| Fin (q : Qc)
| PInf
| NInf
| NaN.

Definition ofZ (z : Z) : num := Fin (Q2Qc (inject_Z z)).
Definition ofN (n : N) : num := ofZ (Z.of_N n).
Definition ofNat (n : nat) : num := ofZ (Z.of_nat n).
Definition ofQ (q : Q) : num := Fin (Q2Qc q).

Definition zero : num := ofZ 0.
Definition one : num := ofZ 1.

(** The sign of a rational, as a comparison with zero. *)
Definition sgn (q : Qc) : comparison := (q ?= 0)%Qc.

(** Unary minus. *)
Definition neg (a : num) : num :=
match a with
| Fin q => Fin (- q)%Qc
| PInf => NInf
| NInf => PInf
| NaN => NaN
end.

(** [a + b]. *)
Definition add (a b : num) : num :=
match a, b with
| NaN, _ | _, NaN => NaN
| Fin p, Fin q => Fin (p + q)%Qc
| PInf, NInf | NInf, PInf => NaN
| PInf, _ | _, PInf => PInf
| NInf, _ | _, NInf => NInf
end.

(** [a - b], which IEEE 754 defines as [a + (-b)]. *)
Definition sub (a b : num) : num := add a (neg b).

(** An infinity with the sign of [c]; [NaN] when [c] is zero. *)
Definition signedInf (c : comparison) : num :=
match c with
| Gt => PInf
| Lt => NInf
| Eq => NaN
end.

(** [a * b]. *)
Definition mul (a b : num) : num :=
match a, b with
| NaN, _ | _, NaN => NaN
| Fin p, Fin q => Fin (p * q)%Qc
| Fin p, PInf | PInf, Fin p => signedInf (sgn p)
| Fin p, NInf | NInf, Fin p => signedInf (CompOpp (sgn p))
| PInf, PInf | NInf, NInf => PInf
| PInf, NInf | NInf, PInf => NInf
end.

(** [a / b].  A finite non-zero value divided by zero is an infinity of the
  sign of the dividend, [0 / 0] is [NaN]. *)
Definition div (a b : num) : num :=
match a, b with
| NaN, _ | _, NaN => NaN
| Fin p, Fin q =>
    if Qc_eq_dec q 0 then signedInf (sgn p) else Fin (p / q)%Qc
| Fin _, PInf | Fin _, NInf => zero
| PInf, Fin q => match sgn q with Lt => NInf | _ => PInf end
| NInf, Fin q => match sgn q with Lt => PInf | _ => NInf end
| PInf, PInf | PInf, NInf | NInf, PInf | NInf, NInf => NaN
end.

(** [a < b]; false as soon as one side is [NaN]. *)
Definition ltb (a b : num) : bool :=
match a, b with
| NaN, _ | _, NaN => false
| Fin p, Fin q => match (p ?= q)%Qc with Lt => true | _ => false end
| _, NInf => false
| PInf, _ => false
| NInf, _ => true
| Fin _, PInf => true
end.

(** [a > b]. *)
Definition gtb (a b : num) : bool := ltb b a.

(** [a >= b]; false as soon as one side is [NaN]. *)
Definition geb (a b : num) : bool :=
match a, b with
| NaN, _ | _, NaN => false
| Fin p, Fin q => match (p ?= q)%Qc with Lt => false | _ => true end
| _, NInf => true
| PInf, _ => true
| NInf, _ => false
| Fin _, PInf => false
end.

(** [a === b] on numbers; [NaN] is equal to nothing. *)
Definition eqb (a b : num) : bool :=
match a, b with
| Fin p, Fin q => Qc_eq_bool p q
| PInf, PInf | NInf, NInf => true
| _, _ => false
end.

(** [Math.abs]. *)
Definition abs (a : num) : num :=
match a with
| Fin q => Fin (Q2Qc (Qabs q))
| PInf | NInf => PInf
| NaN => NaN
end.

(** [Math.round]: the nearest integer, a tie going up. *)
Definition round (a : num) : num :=
match a with
| Fin q => ofZ (Qfloor (q + Q2Qc (1 # 2))%Qc)
| _ => a
end.

(** Truthiness of a number: everything but [0] and [NaN]. *)
Definition truthy (a : num) : bool :=
match a with
| Fin q => negb (Qc_eq_bool q 0)
| PInf | NInf => true
| NaN => false
end.

(** [a || b] for a number [a]. *)
Definition or (a b : num) : num := if truthy a then a else b.

(** [v || b] where [v] may be [undefined] (an array read out of range). *)
Definition orUndef (v : option num) (b : num) : num :=
match v with
| Some a => or a b
| None => b
end.

Definition isFinite (a : num) : bool :=
match a with
| Fin _ => true
| _ => false
end.

(** [a <= b] as a proposition, on numbers that are not [NaN]. *)
Definition le (a b : num) : Prop := geb b a = true.

End JsNumber.

Import JsNumber.

Declare Scope num_scope.
Delimit Scope num_scope with num.
Bind Scope num_scope with num.
Infix "+" := add : num_scope.
Infix "-" := sub : num_scope.
Infix "*" := mul : num_scope.
Infix "/" := div : num_scope.
Notation "- a" := (neg a) : num_scope.

Local Open Scope num_scope.

(** ** The canvas platform, as far as the tile uses it *)

(** A [CanvasGradient]: the line it spans and its color stops, in the order
    [addColorStop] was called. *)
Record CanvasGradient : Type := mkGradient {
  gx0 : num;
  gy0 : num;
  gx1 : num;
  gy1 : num;
  colorStops : list (num * string)
}.

(** [ctx.createLinearGradient(x0, y0, x1, y1)]: a gradient without stops. *)
Definition createLinearGradient (x0 y0 x1 y1 : num) : CanvasGradient :=
  mkGradient x0 y0 x1 y1 [].

(** [gradient.addColorStop(offset, color)].  Colors are taken to be valid CSS
    colors: the [SyntaxError] of an unparsable color is not modelled. *)
Definition addColorStop (g : CanvasGradient) (offset : num) (color : string)
  : CanvasGradient :=
  mkGradient (gx0 g) (gy0 g) (gx1 g) (gy1 g) (colorStops g ++ [(offset, color)]).

(** The value of [ctx.fillStyle]. *)
Inductive fillStyle : Type :=
| StyleColor (c : string)
| StyleGradient (g : CanvasGradient).

(** The calls of the 2D context API the tile makes. *)
Inductive call : Type :=
| ClearRect (x y w h : num)
| FillRect (x y w h : num)
| BeginPath
| MoveTo (x y : num)
| LineTo (x y : num)
| QuadraticCurveTo (cpx cpy x y : num)
| ClosePath
| Fill
| SetTransform (a b c d e f : num).

(** A [CanvasRenderingContext2D]: its fill style and the calls made on it so
    far, oldest first. *)
Record context2d : Type := mkContext {
  ctxFillStyle : fillStyle;
  calls : list call
}.

Definition emit (ctx : context2d) (cs : list call) : context2d :=
  mkContext (ctxFillStyle ctx) (calls ctx ++ cs).

Definition setFillStyle (ctx : context2d) (s : fillStyle) : context2d :=
  mkContext s (calls ctx).

(** An [HTMLCanvasElement]: its layout offset, the size of its bitmap and the
    width of its inline style ([None] while unset; [Some w] stands for the
    string [w + 'px']). *)
Record HTMLCanvasElement : Type := mkCanvas {
  offsetLeft : Z;
  width : N;
  height : N;
  styleWidth : option num
}.

(** A canvas element together with what [element.getContext('2d', ...)]
    returned for it ([None] for [null]).  The tile's [wave] and [waveCtx]
    (and [progress], [progressCtx]) are set together by [initWave]
    ([initProgress]) and cleared together by [destroy], and [waveCtx.canvas]
    is [wave]: the pair of fields is one value here. *)
Record surface : Type := mkSurface {
  element : HTMLCanvasElement;
  context : option context2d
}.

(** Exceptions. *)
Inductive jsError : Type :=
| TypeError
| DOMException (name : string).

(** How a call completes. *)
Inductive completion (A : Type) : Type :=
| Normal (a : A)
| Throw (e : jsError)
| Diverge.
Arguments Normal {A} a.
Arguments Throw {A} e.
Arguments Diverge {A}.

(** What a filled rectangle covers in the user space of the context (before
    the transform in force is applied, see [deviceCovers]): the points
    [(px, py)] with [x <= px < x + w] and [y <= py < y + h] (sides taken in
    either direction).  Following the canvas rule, a rectangle with a non-finite
    argument or with a zero width or height covers nothing. *)
Definition between (a b p : Qc) : bool :=
  (if Qclt_le_dec p a then false else if Qclt_le_dec p b then true else false)
  || (if Qclt_le_dec p b then false else if Qclt_le_dec p a then true else false).

Definition rectCovers (x y w h : num) (px py : Qc) : bool :=
  match x, y, w, h with
  | Fin x, Fin y, Fin w, Fin h =>
      between x (x + w)%Qc px && between y (y + h)%Qc py
  | _, _, _, _ => false
  end.

(** The points whose pixels a call changes without going through the
    current path: those of the rectangle, for [fillRect] and [clearRect]. *)
Definition callCovers (c : call) (px py : Qc) : bool :=
  match c with
  | FillRect x y w h => rectCovers x y w h px py
  | ClearRect x y w h => rectCovers x y w h px py
  | _ => false
  end.

(** The current path as the list of the points given to it.  Following the
    canvas rule, [moveTo], [lineTo] and [quadraticCurveTo] with a non-finite
    argument are ignored. *)
Definition point : Type := (Qc * Qc)%type.

Definition pathStep (path : list point) (c : call) : list point :=
  match c with
  | BeginPath => []
  | MoveTo (Fin x) (Fin y) => path ++ [(x, y)]
  | LineTo (Fin x) (Fin y) => path ++ [(x, y)]
  | QuadraticCurveTo (Fin cx) (Fin cy) (Fin x) (Fin y) =>
      path ++ [(cx, cy); (x, y)]
  | _ => path
  end.

(** The paths handed to [fill], oldest first, when [cs] runs from the
    current path [path]. *)
Fixpoint filledPaths (path : list point) (cs : list call) : list (list point) :=
  match cs with
  | [] => []
  | Fill :: cs' => path :: filledPaths path cs'
  | c :: cs' => filledPaths (pathStep path c) cs'
  end.

(** ** util/style.js *)

Definition num_eq_dec (a b : num) : {a = b} + {a <> b}.
Proof. decide equality. apply Qc_eq_dec. Defined.

(** [style(el, styles)] for the one map the tile passes,
    [{ width: elementWidth + 'px' }]: the property is assigned only when it
    differs. *)
Definition style (el : HTMLCanvasElement) (elementWidth : num)
  : HTMLCanvasElement :=
  match styleWidth el with
  | Some w =>
      if num_eq_dec w elementWidth then el
      else mkCanvas (offsetLeft el) (width el) (height el) (Some elementWidth)
  | None => mkCanvas (offsetLeft el) (width el) (height el) (Some elementWidth)
  end.

(** ** The tile: class [CanvasEntry] *)

(** The fields of a [CanvasEntry].  [hasProgressCanvas] and [halfPixel] are
    read by the methods and assigned by the renderer that owns the tile; the
    constructor leaves them [undefined], which reads as [false] in a
    condition and as [NaN] in an addition.  [id] and
    [canvasContextAttributes] play no part in drawing and are left out. *)
Record CanvasEntry : Type := mkEntry {
  wave : option surface;
  progress : option surface;
  start : num;
  end_ : num;
  hasProgressCanvas : bool;
  halfPixel : num
}.

(** [new CanvasEntry()]. *)
Definition constructor : CanvasEntry :=
  mkEntry None None zero one false NaN.

(** [this.waveCtx] and [this.progressCtx]; [None] is [null]. *)
Definition waveCtx (t : CanvasEntry) : option context2d :=
  match wave t with
  | Some s => context s
  | None => None
  end.

Definition progressCtx (t : CanvasEntry) : option context2d :=
  match progress t with
  | Some s => context s
  | None => None
  end.

Definition setContext (s : option surface) (c : option context2d)
  : option surface :=
  match s with
  | Some s => Some (mkSurface (element s) c)
  | None => None
  end.

(** The tile after the calls made on a context: the context object is
    shared, so the tile sees them. *)
Definition setWaveCtx (t : CanvasEntry) (c : option context2d) : CanvasEntry :=
  mkEntry (setContext (wave t) c) (progress t) (start t) (end_ t)
          (hasProgressCanvas t) (halfPixel t).

Definition setProgressCtx (t : CanvasEntry) (c : option context2d)
  : CanvasEntry :=
  mkEntry (wave t) (setContext (progress t) c) (start t) (end_ t)
          (hasProgressCanvas t) (halfPixel t).

(** Methods: the tile goes in, the mutated tile and the completion come
    out. *)
Definition M (A : Type) : Type := CanvasEntry -> CanvasEntry * completion A.

Definition ret {A} (a : A) : M A := fun t => (t, Normal a).

Definition throw {A} (e : jsError) : M A := fun t => (t, Throw e).

Definition bind {A B} (m : M A) (k : A -> M B) : M B :=
  fun t =>
    match m t with
    | (t', Normal a) => k a t'
    | (t', Throw e) => (t', Throw e)
    | (t', Diverge) => (t', Diverge)
    end.

Notation "x <- m ;; k" := (bind m (fun x => k))
  (at level 61, m at next level, right associativity).
Notation "m ;; k" := (bind m (fun _ => k))
  (at level 61, right associativity).

(** [if (this.hasProgressCanvas) { body }]. *)
Definition whenProgress (body : M unit) : M unit :=
  fun t => if hasProgressCanvas t then body t else (t, Normal tt).

(** A method call [this.waveCtx.m(...)] or an assignment
    [this.waveCtx.p = ...]: a [TypeError] when the context is [null]. *)
Definition onWaveCtx (f : HTMLCanvasElement -> context2d -> context2d) : M unit :=
  fun t =>
    match wave t with
    | Some (mkSurface el (Some ctx)) =>
        (setWaveCtx t (Some (f el ctx)), Normal tt)
    | _ => (t, Throw TypeError)
    end.

Definition onProgressCtx (f : HTMLCanvasElement -> context2d -> context2d)
  : M unit :=
  fun t =>
    match progress t with
    | Some (mkSurface el (Some ctx)) =>
        (setProgressCtx t (Some (f el ctx)), Normal tt)
    | _ => (t, Throw TypeError)
    end.

(** [initWave(element)]; [s] pairs the element with the result of its
    [getContext]. *)
Definition initWave (s : surface) : M unit :=
  fun t =>
    (mkEntry (Some s) (progress t) (start t) (end_ t)
             (hasProgressCanvas t) (halfPixel t), Normal tt).

(** [initProgress(element)]. *)
Definition initProgress (s : surface) : M unit :=
  fun t =>
    (mkEntry (wave t) (Some s) (start t) (end_ t)
             (hasProgressCanvas t) (halfPixel t), Normal tt).

(** [destroy()]. *)
Definition destroy : M unit :=
  fun t =>
    (mkEntry None None (start t) (end_ t) (hasProgressCanvas t) (halfPixel t),
     Normal tt).

(** The new bitmap size and style width of a canvas element. *)
Definition resize (el : HTMLCanvasElement) (elementWidth : num) (w h : N)
  : HTMLCanvasElement :=
  style (mkCanvas (offsetLeft el) w h (styleWidth el)) elementWidth.

(** [updateDimensions(elementWidth, totalWidth, width, height)].  [width]
    and [height] are the pixel sizes the renderer passes.  Not modelled:
    assigning them clears the bitmap and resets the state of the context
    (fill style, transform), and the style store refuses a width that is no
    length (['-4px'], ['NaNpx']). *)
Definition updateDimensions (elementWidth totalWidth : num) (w h : N) : M unit :=
  fun t =>
    match wave t with
    | None => (t, Throw TypeError)
    | Some s =>
        let start' := or (ofZ (offsetLeft (element s)) / totalWidth) zero in
        let end' := start' + elementWidth / totalWidth in
        let wave' := mkSurface (resize (element s) elementWidth w h) (context s) in
        let t1 := mkEntry (Some wave') (progress t) start' end'
                          (hasProgressCanvas t) (halfPixel t) in
        if hasProgressCanvas t then
          match progress t with
          | None => (t1, Throw TypeError)
          | Some p =>
              let progress' :=
                mkSurface (resize (element p) elementWidth w h) (context p) in
              (mkEntry (Some wave') (Some progress') start' end'
                       (hasProgressCanvas t) (halfPixel t), Normal tt)
          end
        else (t1, Normal tt)
    end.

(** [clearWave()]. *)
Definition clearWave : M unit :=
  onWaveCtx (fun el ctx =>
    emit ctx [ClearRect zero zero (ofN (width el)) (ofN (height el))]) ;;
  whenProgress (
    onProgressCtx (fun el ctx =>
      emit ctx [ClearRect zero zero (ofN (width el)) (ofN (height el))])).

(** The color argument of [setFillStyles]: a string, an array of strings, or
    [null] (allowed for the progress color). *)
Inductive colorArg : Type :=
| ColorString (s : string)
| ColorArray (colors : list string)
| ColorNull.

(** [color.forEach((value, index) => g.addColorStop(index / color.length,
    value))], from index [index] on: [rest] are the colors still to visit. *)
Fixpoint addColorStops (g : CanvasGradient) (length : nat) (index : nat)
  (rest : list string) : CanvasGradient :=
  match rest with
  | [] => g
  | value :: rest' =>
      addColorStops (addColorStop g (ofNat index / ofNat length) value)
                    length (S index) rest'
  end.

(** [getFillStyle(ctx, color)]; [canvasHeight] is [ctx.canvas.height]. *)
Definition getFillStyle (ctx : option (HTMLCanvasElement * context2d))
  (color : colorArg) : completion fillStyle :=
  match color with
  | ColorString s => Normal (StyleColor s)
  | _ =>
      match ctx with
      | None => Throw TypeError
      | Some (canvas, _) =>
          let waveGradient :=
            createLinearGradient zero zero zero (ofN (height canvas)) in
          match color with
          | ColorArray colors =>
              Normal (StyleGradient
                (addColorStops waveGradient (List.length colors) 0 colors))
          | _ => Throw TypeError
          end
      end
  end.

(** A context together with its canvas ([ctx.canvas]), when there is one. *)
Definition withCanvas (s : option surface)
  : option (HTMLCanvasElement * context2d) :=
  match s with
  | Some (mkSurface el (Some ctx)) => Some (el, ctx)
  | _ => None
  end.

Definition liftC {A} (f : CanvasEntry -> completion A) : M A :=
  fun t => (t, f t).

(** [setFillStyles(waveColor, progressColor)]. *)
Definition setFillStyles (waveColor progressColor : colorArg) : M unit :=
  s <- liftC (fun t => getFillStyle (withCanvas (wave t)) waveColor) ;;
  onWaveCtx (fun _ ctx => setFillStyle ctx s) ;;
  whenProgress (
    p <- liftC (fun t => getFillStyle (withCanvas (progress t)) progressColor) ;;
    onProgressCtx (fun _ ctx => setFillStyle ctx p)).

(** [applyCanvasTransforms(vertical)]. *)
Definition applyCanvasTransforms (vertical : bool) : M unit :=
  if vertical then
    onWaveCtx (fun _ ctx =>
      emit ctx [SetTransform zero one one zero zero zero]) ;;
    whenProgress (
      onProgressCtx (fun _ ctx =>
        emit ctx [SetTransform zero one one zero zero zero]))
  else ret tt.

(** The outline of the rounded rectangle, once [height] is positive. *)
Definition roundedRectPath (x y width height radius : num) : list call :=
  [ BeginPath;
    MoveTo (x + radius) y;
    LineTo (x + width - radius) y;
    QuadraticCurveTo (x + width) y (x + width) (y + radius);
    LineTo (x + width) (y + height - radius);
    QuadraticCurveTo (x + width) (y + height) (x + width - radius) (y + height);
    LineTo (x + radius) (y + height);
    QuadraticCurveTo x (y + height) x (y + height - radius);
    LineTo x (y + radius);
    QuadraticCurveTo x y (x + radius) y;
    ClosePath;
    Fill ].

(** [drawRoundedRect(ctx, x, y, width, height, radius)]. *)
Definition drawRoundedRect (ctx : context2d) (x y width height radius : num)
  : context2d :=
  if eqb height zero then ctx
  else
    if ltb height zero then
      let height' := height * ofZ (-1) in
      let y' := y - height' in
      emit ctx (roundedRectPath x y' width height' radius)
    else emit ctx (roundedRectPath x y width height radius).

(** [fillRectToContext(ctx, x, y, width, height, radius)]; a [null] context
    stays [null]. *)
Definition fillRectToContext (ctx : option context2d)
  (x y width height radius : num) : option context2d :=
  match ctx with
  | None => None
  | Some ctx =>
      if truthy radius then
        Some (drawRoundedRect ctx x y width height radius)
      else Some (emit ctx [FillRect x y width height])
  end.

(** [fillRects(x, y, width, height, radius)]: the specification's
    [drawBar]. *)
Definition fillRects (x y width height radius : num) : M unit :=
  (fun t =>
     (setWaveCtx t (fillRectToContext (waveCtx t) x y width height radius),
      Normal tt)) ;;
  whenProgress (fun t =>
     (setProgressCtx t
        (fillRectToContext (progressCtx t) x y width height radius),
      Normal tt)).

(** *** Drawing the waveform *)

(** [peaks[index]]: [None] is [undefined], the value at a key that is not an
    index of the array. *)
Definition peakAt (peaks : list num) (index : num) : option num :=
  match index with
  | Fin q =>
      let z := Qfloor q in
      if Qc_eq_bool q (Q2Qc (inject_Z z)) && (0 <=? z)%Z
      then nth_error peaks (Z.to_nat z) else None
  | _ => None
  end.

(** The values [i] takes in [for (i = first; i < last; i++)]; [None] when the
    loop never ends (an infinite bound that [i++] cannot reach or leave).
    The counter is exact, as a JavaScript number is while it stays below
    [2^53] in absolute value; beyond that [i++] may leave [i] as it is, which
    this definition does not follow. *)
Definition upward (first last : num) : option (list num) :=
  match first, last with
  | NaN, _ | _, NaN => Some []
  | _, NInf => Some []
  | PInf, _ => Some []
  | NInf, _ => None
  | Fin _, PInf => None
  | Fin a, Fin b =>
      Some (map (fun k => Fin (a + Q2Qc (inject_Z (Z.of_nat k)))%Qc)
                (seq 0 (Z.to_nat (Qceiling (b - a)%Qc))))
  end.

(** The values [j] takes in [for (j = last - 1; j >= first; j--)], with the
    same proviso on the counter. *)
Definition downward (last first : num) : option (list num) :=
  match last, first with
  | NaN, _ | _, NaN => Some []
  | PInf, _ => None
  | _, NInf => None
  | NInf, _ => Some []
  | _, PInf => Some []
  | Fin b, Fin a =>
      Some (map (fun k =>
                   Fin (b - Q2Qc (inject_Z 1) - Q2Qc (inject_Z (Z.of_nat k)))%Qc)
                (seq 0 (Z.to_nat (Qfloor (b - Q2Qc (inject_Z 1) - a)%Qc + 1))))
  end.

(** The constants [drawLineToContext] computes first. *)
Definition lineLength (peaks : list num) : num :=
  ofNat (List.length peaks) / ofZ 2.

Definition lineFirst (t : CanvasEntry) (peaks : list num) : num :=
  round (lineLength peaks * start t).

Definition lineLast (t : CanvasEntry) (peaks : list num) : num :=
  round (lineLength peaks * end_ t) + one.

Definition lineScale (waveWidth : N) (canvasStart canvasEnd : num) : num :=
  ofN waveWidth / (canvasEnd - canvasStart - one).

Section Line.

Variables (peaks : list num) (first scale halfPixel halfOffset absmaxHalf : num).

(** The height on the canvas of the peak at [index]. *)
Definition peakHeight (index : num) : num :=
  round (orUndef (peakAt peaks index) zero / absmaxHalf).

(** The vertex of the upper edge for sample [i]. *)
Definition upperVertex (i : num) : call :=
  LineTo ((i - first) * scale + halfPixel)
         (halfOffset - peakHeight (ofZ 2 * i)).

(** The vertex of the lower edge for sample [j]. *)
Definition lowerVertex (j : num) : call :=
  LineTo ((j - first) * scale + halfPixel)
         (halfOffset - peakHeight (ofZ 2 * j + one)).

End Line.

(** [drawLineToContext(ctx, peaks, absmax, halfH, offsetY, start, end)].  The
    arguments [start] and [end] are not used by the body, which reads
    [this.start] and [this.end]. *)
Definition drawLineToContext (t : CanvasEntry) (ctx : option context2d)
  (peaks : list num) (absmax halfH offsetY start' end' : num)
  : completion (option context2d) :=
  match ctx with
  | None => Normal None
  | Some ctx =>
      let first := lineFirst t peaks in
      let last := lineLast t peaks in
      let canvasStart := first in
      let canvasEnd := last in
      match wave t with
      | None => Throw TypeError
      | Some w =>
          let scale := lineScale (width (element w)) canvasStart canvasEnd in
          let halfOffset := halfH + offsetY in
          let absmaxHalf := absmax / halfH in
          let opening :=
            [ BeginPath;
              MoveTo ((canvasStart - first) * scale) halfOffset;
              LineTo ((canvasStart - first) * scale)
                     (halfOffset
                      - peakHeight peaks absmaxHalf (ofZ 2 * canvasStart)) ] in
          match upward canvasStart canvasEnd with
          | None => Diverge
          | Some ups =>
              match downward canvasEnd canvasStart with
              | None => Diverge
              | Some downs =>
                  Normal (Some (emit ctx (
                    opening
                    ++ map (upperVertex peaks first scale (halfPixel t)
                                        halfOffset absmaxHalf) ups
                    ++ map (lowerVertex peaks first scale (halfPixel t)
                                        halfOffset absmaxHalf) downs
                    ++ [ LineTo ((canvasStart - first) * scale)
                                (halfOffset
                                 - peakHeight peaks absmaxHalf
                                     (ofZ 2 * canvasStart + one));
                         ClosePath;
                         Fill ])))
              end
          end
      end
  end.

(** [drawLines(peaks, absmax, halfH, offsetY, start, end)]. *)
Definition drawLines (peaks : list num) (absmax halfH offsetY start' end' : num)
  : M unit :=
  (fun t =>
     match drawLineToContext t (waveCtx t) peaks absmax halfH offsetY
                             start' end' with
     | Normal c => (setWaveCtx t c, Normal tt)
     | Throw e => (t, Throw e)
     | Diverge => (t, Diverge)
     end) ;;
  whenProgress (fun t =>
     match drawLineToContext t (progressCtx t) peaks absmax halfH offsetY
                             start' end' with
     | Normal c => (setProgressCtx t c, Normal tt)
     | Throw e => (t, Throw e)
     | Diverge => (t, Diverge)
     end).

(** *** Exporting the image *)

(** A [Blob]: its bytes. *)
Definition Blob : Type := list Byte.byte.

(** What [canvas.toBlob(callback, format, quality)] does: it throws, or it
    returns and later calls [callback] with the blob, or with [null] when
    the image could not be encoded. *)
Inductive toBlobOutcome : Type :=
| ToBlobThrows (e : jsError)
| ToBlobCalls (result : option Blob).

(** The state of a promise. *)
Inductive promiseState : Type :=
| Pending
| Fulfilled (value : option Blob)
| Rejected (reason : jsError).

(** A promise: its state when [getImage] returns it and the state it
    settles in. *)
Record Promise : Type := mkPromise {
  onReturn : promiseState;
  settled : promiseState
}.

(** What [getImage] returns. *)
Inductive imageResult : Type :=
| DataURL (url : string)
| BlobPromise (p : Promise)
| Undefined.

Section ExportImage.

(** The encoders of the platform.  They are given the canvas with its
    context, that is with the calls that were drawn on it: what they
    return may depend on the bitmap. *)
Variable toDataURL : surface -> string -> num -> completion string.
Variable toBlob : surface -> string -> num -> toBlobOutcome.

(** [new Promise(resolve => { this.wave.toBlob(resolve, format, quality) })]:
    the executor runs at once; an exception in it rejects the promise,
    otherwise the promise stays pending until [resolve] is called. *)
Definition blobPromise (t : CanvasEntry) (format : string) (quality : num)
  : Promise :=
  match wave t with
  | None => mkPromise (Rejected TypeError) (Rejected TypeError)
  | Some s =>
      match toBlob s format quality with
      | ToBlobThrows e => mkPromise (Rejected e) (Rejected e)
      | ToBlobCalls result => mkPromise Pending (Fulfilled result)
      end
  end.

(** [getImage(format, quality, type)]. *)
Definition getImage (t : CanvasEntry) (format : string) (quality : num)
  (type : string) : completion imageResult :=
  if String.eqb type "blob" then
    Normal (BlobPromise (blobPromise t format quality))
  else if String.eqb type "dataURL" then
    match wave t with
    | None => Throw TypeError
    | Some s =>
        match toDataURL s format quality with
        | Normal url => Normal (DataURL url)
        | Throw e => Throw e
        | Diverge => Diverge
        end
    end
  else Normal Undefined.

End ExportImage.

(** ** util/min.js, util/absMax.js *)

Module Util.

(** [min(values)]: [Object.keys(values).forEach] visits the indices of the
    array in order. *)
Definition min (values : list num) : num :=
  fold_left (fun smallest v => if ltb v smallest then v else smallest)
            values PInf.

Section AbsMax.

(** [absMax.js] imports [utilMax] from [util/max.js], which is not among
    the sources: [absMax] is given for any such function. *)
Variable utilMax : list num -> num.

(** [absMax(values)]. *)
Definition absMax (values : list num) : num :=
  let max := utilMax values in
  let min := min values in
  if gtb (- min) max then - min else max.

End AbsMax.

(** Modelled from the spec: [util/max.js] is missing from the sources.
    "The larger of max(values) and -min(values)" takes it to return the
    largest value of the array; it is written here as the mirror image of
    [min], starting from [-Infinity]. *)
Definition max (values : list num) : num :=
  fold_left (fun largest v => if gtb v largest then v else largest)
            values NInf.

End Util.

(** ** What a sequence of calls leaves on the bitmap *)

(** The calls [cs], made when the current path is [path], paint nothing:
    every path they fill is empty and every rectangle they fill or clear
    covers no point. *)
Definition paintsNothing (path : list point) (cs : list call) : Prop :=
  Forall (fun filled => filled = []) (filledPaths path cs)
  /\ Forall (fun c => forall px py, callCovers c px py = false) cs.

(** The context [c'] is the context [c] after further calls that paint
    nothing: same fill style, same bitmap. *)
Definition sameBitmap (c c' : context2d) : Prop :=
  ctxFillStyle c' = ctxFillStyle c
  /\ exists extra,
      calls c' = calls c ++ extra
      /\ forall path, paintsNothing path extra.

(** The same, for a surface of the tile that may be missing or may have no
    context. *)
Definition sameSurface (s s' : option surface) : Prop :=
  match s, s' with
  | None, None => True
  | Some a, Some b =>
      element b = element a
      /\ match context a, context b with
         | None, None => True
         | Some c, Some c' => sameBitmap c c'
         | _, _ => False
         end
  | _, _ => False
  end.

(** ** The window of samples of a tile, in the words of the specification *)

(** [round(N * x)] for the [N = length / 2] sample pairs of [peaks]. *)
Definition sampleIndex (peaks : list num) (x : Qc) : Z :=
  Qfloor (inject_Z (Z.of_nat (List.length peaks)) / 2 * x + (1 # 2))%Q.

(** The sample indices [lo, lo + 1, ..., hi - 1]. *)
Definition indexRange (lo hi : Z) : list num :=
  map (fun k => ofZ (lo + Z.of_nat k)) (seq 0 (Z.to_nat (hi - lo))).

(** The closed hull of the samples of [window]: from the zero line at the
    left edge to the maximum of the first sample, the maxima of the window
    from left to right, its minima from right to left, back to the minimum
    of the first sample, closed and filled. *)
Definition hullCalls (peaks : list num) (first scale hp zeroLine unit : num)
  (window : list num) : list call :=
  [ BeginPath;
    MoveTo ((first - first) * scale) zeroLine;
    LineTo ((first - first) * scale)
           (zeroLine - peakHeight peaks unit (ofZ 2 * first)) ]
  ++ map (upperVertex peaks first scale hp zeroLine unit) window
  ++ map (lowerVertex peaks first scale hp zeroLine unit) (rev window)
  ++ [ LineTo ((first - first) * scale)
              (zeroLine - peakHeight peaks unit (ofZ 2 * first + one));
       ClosePath;
       Fill ].

(** ** The largest absolute value, in the words of the claim *)

(** A number proper: any value but [NaN]. *)
Definition notNaN (v : num) : Prop := v <> NaN.

(** The larger of two numbers, the first when they are equal. *)
Definition larger (a b : num) : num := if gtb b a then b else a.

(** ** Tiles and platforms of the examples *)

(** A tile with an attached wave canvas 100 pixels wide that spans the whole
    waveform; the other fields are free. *)
Definition exampleTile (offset : Z) (canvasHeight : N) (css : option num)
  (ctx : context2d) (progressSurface : option surface) (withProgress : bool)
  (hp : num) : CanvasEntry :=
  mkEntry (Some (mkSurface (mkCanvas offset 100 canvasHeight css) (Some ctx)))
          progressSurface zero one withProgress hp.

(** A tile with an attached wave canvas over the span [[from, to]]. *)
Definition spanTile (from to : Q) : CanvasEntry :=
  mkEntry (Some (mkSurface (mkCanvas 0 100 100 None)
                           (Some (mkContext (StyleColor "#000000") []))))
          None (ofQ from) (ofQ to) false (ofQ (1 # 2)).

(** An attached wave canvas 100 pixels wide and high, without progress
    canvas, spanning the whole waveform. *)
Definition wholeTile : CanvasEntry :=
  mkEntry (Some (mkSurface (mkCanvas 0 100 100 None)
                           (Some (mkContext (StyleColor "#000000") []))))
          None zero one false (ofQ (1 # 2)).

(** The series [[1, -1, 0.5, -0.5]]. *)
Definition twoSamples : list num :=
  [ofZ 1; ofZ (-1); ofQ (1 # 2); ofQ (-1 # 2)].

(** A wave canvas laid out 5 pixels from the left, without context. *)
Definition offsetTile : CanvasEntry :=
  mkEntry (Some (mkSurface (mkCanvas 5 0 0 None) None)) None
          zero one false NaN.

(** A wave canvas laid out 200 pixels from the left. *)
Definition thirdTile : CanvasEntry :=
  mkEntry (Some (mkSurface (mkCanvas 200 0 0 None) None)) None
          zero one false NaN.

(** A platform whose [toDataURL] answers with a fixed URL. *)
Definition urlEncoder (canvas : surface) (format : string) (quality : num)
  : completion string :=
  Normal "data:image/png;base64,"%string.

(** A platform whose [toBlob] cannot encode the image: it calls the callback
    with [null]. *)
Definition failingEncoder (canvas : surface) (format : string)
  (quality : num) : toBlobOutcome :=
  ToBlobCalls None.

(** ** util/style.js, for any map of styles *)

Module StyleUtil.

(** An element: the declarations of its inline style, the latest assignment
    first, and the number of assignments made to it.  A property that was
    never assigned reads as the empty string; the store gives back the
    string that was assigned. *)
Record HTMLElement : Type := mkElement {
  declarations : list (string * string);
  assignments : nat
}.

(** [object[prop]] for a map from property names to strings. *)
Fixpoint getProperty (map : list (string * string)) (prop : string) : string :=
  match map with
  | [] => EmptyString
  | (p, v) :: rest => if String.eqb p prop then v else getProperty rest prop
  end.

(** [el.style[prop] = value]. *)
Definition setProperty (el : HTMLElement) (prop value : string) : HTMLElement :=
  mkElement ((prop, value) :: declarations el) (S (assignments el)).

(** The body of the loop of [style]. *)
Definition styleStep (styles : list (string * string)) (el : HTMLElement)
  (prop : string) : HTMLElement :=
  if String.eqb (getProperty (declarations el) prop) (getProperty styles prop)
  then el
  else setProperty el prop (getProperty styles prop).

(** [style(el, styles)]: [Object.keys(styles)] are the names of [styles], in
    order. *)
Definition style (el : HTMLElement) (styles : list (string * string))
  : HTMLElement :=
  fold_left (styleStep styles) (List.map fst styles) el.

End StyleUtil.

(** ** The transform of a context *)

(** A transform matrix [(a, b, c, d, e, f)]. *)
Definition matrix : Type := (num * num * num * num * num * num)%type.

Definition identityMatrix : matrix := (one, zero, zero, one, zero, zero).

(** The matrix [applyCanvasTransforms] sets. *)
Definition swapMatrix : matrix := (zero, one, one, zero, zero, zero).

(** The transform in force after the calls [cs]: [setTransform] replaces
    the transform, it does not multiply it. *)
Definition currentTransform (cs : list call) : matrix :=
  fold_left (fun m c =>
               match c with
               | SetTransform a b c d e f => (a, b, c, d, e, f)
               | _ => m
               end) cs identityMatrix.

(** The image of the point [(x, y)]: [(a x + c y + e, b x + d y + f)]. *)
Definition transformPoint (m : matrix) (x y : num) : num * num :=
  let '(a, b, c, d, e, f) := m in
  (a * x + c * y + e, b * x + d * y + f).

(** What a call changes on the bitmap when the transform [m] is in force:
    the images under [m] of the points it covers in user space. *)
Definition deviceCovers (m : matrix) (c : call) (px py : Qc) : Prop :=
  exists ux uy : Qc,
    callCovers c ux uy = true
    /\ transformPoint m (Fin ux) (Fin uy) = (Fin px, Fin py).

(** ** Further notions used in the statements *)

(** A length of [k] half pixels.  Sums and differences of such lengths are
    exact in JavaScript numbers as long as they stay below [2^53] half
    pixels. *)
Definition halfPixels (k : Z) : Qc := Q2Qc (k # 2).

(** The test [v !== v], true of [NaN] only. *)
Definition isNaN (v : num) : bool :=
  match v with
  | NaN => true
  | _ => false
  end.

(** The rectangle [clearWave] clears on a canvas. *)
Definition wholeBitmap (el : HTMLCanvasElement) : call :=
  ClearRect zero zero (ofN (width el)) (ofN (height el)).

(** A [lineTo] whose ordinate is not finite, or a call that is no
    [lineTo]. *)
Definition lineToIgnored (c : call) : Prop :=
  match c with
  | LineTo _ y => isFinite y = false
  | _ => True
  end.

(** A tile with both canvases attached. *)
Definition progressTile : CanvasEntry :=
  mkEntry (Some (mkSurface (mkCanvas 0 100 100 None)
                           (Some (mkContext (StyleColor "#000000") []))))
          (Some (mkSurface (mkCanvas 0 100 100 None)
                           (Some (mkContext (StyleColor "#000000") []))))
          zero one true (ofQ (1 # 2)).

(** A tile that was told it has a progress canvas but got none. *)
Definition halfAttachedTile : CanvasEntry :=
  mkEntry (Some (mkSurface (mkCanvas 0 100 100 None)
                           (Some (mkContext (StyleColor "#000000") []))))
          None zero one true (ofQ (1 # 2)).

(** A tile on which only [initProgress] was called. *)
Definition progressOnlyTile : CanvasEntry :=
  mkEntry None
          (Some (mkSurface (mkCanvas 0 100 100 None)
                           (Some (mkContext (StyleColor "#000000") []))))
          zero one true (ofQ (1 # 2)).

(** A wave canvas laid out 5 pixels from the left, with a context. *)
Definition shiftedTile : CanvasEntry :=
  mkEntry (Some (mkSurface (mkCanvas 5 100 100 None)
                           (Some (mkContext (StyleColor "#000000") []))))
          None zero one false (ofQ (1 # 2)).

(** * Properties *)

(** ** Numbers *)

Section NumFacts.

Lemma this_Q2Qc (q : Q) : (this (Q2Qc q) == q)%Q.
Proof. simpl. apply Qred_correct. Qed.

Lemma ltb_Fin (p q : Qc) : ltb (Fin p) (Fin q) = true <-> (p < q)%Q.
Proof.
  unfold ltb, Qccompare. rewrite Qlt_alt.
  destruct (p ?= q)%Q; split; congruence.
Qed.

Lemma geb_Fin (p q : Qc) : geb (Fin p) (Fin q) = true <-> (q <= p)%Q.
Proof.
  unfold geb, Qccompare. rewrite Qle_alt, <- (Qcompare_antisym q p).
  destruct (q ?= p)%Q; simpl; split; intros; congruence.
Qed.

Lemma Fin_inj_Qeq (p q : Qc) : (p == q)%Q -> Fin p = Fin q.
Proof. intros H. f_equal. now apply Qc_is_canon. Qed.

Lemma Qc_eq_bool_true (p q : Qc) : Qc_eq_bool p q = true <-> (p == q)%Q.
Proof.
  split.
  - intros H. apply Qc_eq_bool_correct in H. now rewrite H.
  - intros H. apply Qc_is_canon in H. subst. unfold Qc_eq_bool.
    destruct (Qc_eq_dec q q); congruence.
Qed.

Lemma ltb_Fin_false (p q : Qc) : ltb (Fin p) (Fin q) = false <-> (q <= p)%Q.
Proof.
  rewrite <- geb_Fin. unfold ltb, geb.
  destruct (p ?= q)%Qc; split; congruence.
Qed.

Lemma this_opp (q : Qc) : (this (- q)%Qc == - q)%Q.
Proof. apply this_Q2Qc. Qed.

Lemma this_add (p q : Qc) : (this (p + q)%Qc == p + q)%Q.
Proof. apply this_Q2Qc. Qed.

Lemma this_sub (p q : Qc) : (this (p - q)%Qc == p - q)%Q.
Proof. unfold Qcminus. rewrite this_add, this_opp. reflexivity. Qed.

Lemma this_mul (p q : Qc) : (this (p * q)%Qc == p * q)%Q.
Proof. apply this_Q2Qc. Qed.

Lemma this_div (p q : Qc) : (this (p / q)%Qc == p / q)%Q.
Proof.
  unfold Qcdiv, Qcinv. rewrite this_mul, this_Q2Qc. reflexivity.
Qed.

Lemma sgn_Q2Qc (q : Q) : sgn (Q2Qc q) = (q ?= 0)%Q.
Proof.
  unfold sgn, Qccompare. apply Qcompare_comp; [apply this_Q2Qc | reflexivity].
Qed.

Lemma this_abs (q : Qc) : (this (Q2Qc (Qabs q)) == Qabs q)%Q.
Proof. apply this_Q2Qc. Qed.

End NumFacts.

(** Brings a goal about the order of numbers down to rationals. *)
Ltac num_cases :=
  repeat match goal with
         | a : num |- _ => destruct a
         end;
  unfold le, gtb in *; cbn [neg abs] in *;
  repeat match goal with
         | H : ltb (Fin _) (Fin _) = true |- _ => apply ltb_Fin in H
         | H : ltb (Fin _) (Fin _) = false |- _ => apply ltb_Fin_false in H
         | H : geb (Fin _) (Fin _) = true |- _ => apply geb_Fin in H
         | |- ltb (Fin _) (Fin _) = true => apply ltb_Fin
         | |- ltb (Fin _) (Fin _) = false => apply ltb_Fin_false
         | |- geb (Fin _) (Fin _) = true => apply geb_Fin
         end;
  simpl ltb in *; simpl geb in *; try congruence; try discriminate;
  rewrite ?this_opp, ?this_abs in *.

(** ** The largest absolute value *)

Section AbsMax.

Import Util.

Lemma le_refl (a : num) : notNaN a -> le a a.
Proof. unfold notNaN. intros H. num_cases; lra. Qed.

Lemma le_trans (a b c : num) : le a b -> le b c -> le a c.
Proof. intros H1 H2. num_cases; lra. Qed.

Lemma ltb_le (a b : num) : ltb a b = true -> le a b.
Proof. intros H. num_cases; lra. Qed.

Lemma not_ltb_le (a b : num) :
  notNaN a -> notNaN b -> ltb a b = false -> le b a.
Proof. unfold notNaN. intros Ha Hb H. num_cases; lra. Qed.

Lemma le_neg (a b : num) : le a b -> le (- b) (- a).
Proof. intros H. num_cases; lra. Qed.

Lemma notNaN_neg (a : num) : notNaN a -> notNaN (- a).
Proof. unfold notNaN. destruct a; simpl; congruence. Qed.

(** The running minimum of [min]: below its start, below every value
    visited, and one of them. *)
Lemma min_fold (values : list num) (acc : num) :
  notNaN acc -> Forall notNaN values ->
  let r := fold_left (fun smallest v => if ltb v smallest then v else smallest)
                     values acc in
  notNaN r /\ le r acc /\ Forall (le r) values /\ (r = acc \/ In r values).
Proof.
  revert acc. induction values as [|v vs IH]; intros acc Hacc Hall; simpl.
  - repeat split; auto using le_refl.
  - inversion Hall as [|? ? Hv Hvs]; subst.
    destruct (ltb v acc) eqn:E.
    + destruct (IH v Hv Hvs) as (Hr & Hle & Hfa & Hin).
      repeat split; auto.
      * eapply le_trans; eauto using ltb_le.
      * destruct Hin; auto.
    + destruct (IH acc Hacc Hvs) as (Hr & Hle & Hfa & Hin).
      repeat split; auto.
      * constructor; auto. eapply le_trans; eauto using not_ltb_le.
      * destruct Hin; auto.
Qed.

Lemma max_fold (values : list num) (acc : num) :
  notNaN acc -> Forall notNaN values ->
  let r := fold_left (fun largest v => if gtb v largest then v else largest)
                     values acc in
  notNaN r /\ le acc r /\ Forall (fun v => le v r) values
  /\ (r = acc \/ In r values).
Proof.
  revert acc. induction values as [|v vs IH]; intros acc Hacc Hall; simpl.
  - repeat split; auto using le_refl.
  - inversion Hall as [|? ? Hv Hvs]; subst. change (gtb v acc) with (ltb acc v).
    destruct (ltb acc v) eqn:E.
    + destruct (IH v Hv Hvs) as (Hr & Hle & Hfa & Hin).
      split; [exact Hr|]. split; [|split].
      * eapply le_trans; eauto using ltb_le.
      * constructor; assumption.
      * destruct Hin; auto.
    + destruct (IH acc Hacc Hvs) as (Hr & Hle & Hfa & Hin).
      split; [exact Hr|]. split; [exact Hle|split].
      * constructor; [|assumption].
        eapply le_trans; eauto using not_ltb_le.
      * destruct Hin; auto.
Qed.

(** [min] returns the least value of a non-empty array. *)
Lemma min_least (values : list num) :
  values <> [] -> Forall notNaN values ->
  notNaN (min values) /\ In (min values) values
  /\ Forall (le (min values)) values.
Proof.
  intros Hne Hall.
  destruct (min_fold values PInf) as (Hr & _ & Hfa & Hin);
    [discriminate | assumption |].
  fold (min values) in *. repeat split; auto.
  destruct Hin as [Hinf | Hin]; [|assumption].
  destruct values as [|v vs]; [congruence|].
  inversion Hfa as [|? ? Hv _]; subst. inversion Hall as [|? ? Hn _]; subst.
  rewrite Hinf in *. left. unfold notNaN, le in *.
  destruct v; simpl in *; congruence.
Qed.

(** [max] returns the greatest value of a non-empty array. *)
Lemma max_greatest (values : list num) :
  values <> [] -> Forall notNaN values ->
  notNaN (max values) /\ In (max values) values
  /\ Forall (fun v => le v (max values)) values.
Proof.
  intros Hne Hall.
  destruct (max_fold values NInf) as (Hr & _ & Hfa & Hin);
    [discriminate | assumption |].
  fold (max values) in *. repeat split; auto.
  destruct Hin as [Hinf | Hin]; [|assumption].
  destruct values as [|v vs]; [congruence|].
  inversion Hfa as [|? ? Hv _]; subst. inversion Hall as [|? ? Hn _]; subst.
  rewrite Hinf in *. left. unfold notNaN, le in *.
  destruct v; simpl in *; congruence.
Qed.

Lemma neg_min_is_abs (mn mx : num) :
  le mn mx -> gtb (- mn) mx = true -> - mn = abs mn.
Proof.
  intros H1 H2. num_cases. apply Fin_inj_Qeq.
  rewrite this_opp, this_abs, Qabs_neg; lra.
Qed.

Lemma max_is_abs (mn mx : num) :
  notNaN mn -> notNaN mx -> le mn mx -> gtb (- mn) mx = false -> mx = abs mx.
Proof.
  unfold notNaN. intros Hn Hx H1 H2. num_cases. apply Fin_inj_Qeq.
  rewrite this_abs, Qabs_pos; lra.
Qed.

Lemma abs_below_larger (mn mx v : num) :
  notNaN mn -> notNaN mx -> notNaN v -> le mn v -> le v mx ->
  le (abs v) (if gtb (- mn) mx then - mn else mx).
Proof.
  unfold notNaN. intros Hn Hx Hv H1 H2.
  destruct (gtb (- mn) mx) eqn:E; num_cases;
    apply Qabs_Qle_condition; split; lra.
Qed.

(** C10.  For every non-empty array of numbers (values other than [NaN]),
    and [max(values)] being the largest of them, [absMax] returns the
    largest absolute value of the array: its result is the absolute value
    of one of the elements, no element has a larger absolute value, and it
    is the larger of [max(values)] and [-min(values)]. *)
Theorem absMax_largest_absolute_value (utilMax : list num -> num)
  (values : list num) :
  values <> [] -> Forall notNaN values ->
  In (utilMax values) values ->
  Forall (fun v => le v (utilMax values)) values ->
  In (absMax utilMax values) (map abs values)
  /\ Forall (fun v => le (abs v) (absMax utilMax values)) values
  /\ absMax utilMax values = larger (utilMax values) (- min values).
Proof.
  intros Hne Hall Hmax_in Hmax_le.
  destruct (min_least values Hne Hall) as (Hmn & Hmin_in & Hmin_le).
  assert (Hmx : notNaN (utilMax values)).
  { rewrite Forall_forall in Hall. auto. }
  assert (Hle : le (min values) (utilMax values)).
  { rewrite Forall_forall in Hmax_le. auto. }
  split; [|split].
  - unfold absMax. destruct (gtb (- min values) (utilMax values)) eqn:E.
    + rewrite (neg_min_is_abs _ _ Hle E). now apply in_map.
    + rewrite (max_is_abs _ _ Hmn Hmx Hle E). now apply in_map.
  - rewrite Forall_forall in *. intros v Hv. unfold absMax.
    apply abs_below_larger; auto.
  - reflexivity.
Qed.

(** The array of the source's example, [[-3, 2, 1]], with the mirror image
    of [min] for [max]: the largest absolute value is 3. *)
Lemma absMax_largest_absolute_value_witness :
  absMax max [ofZ (-3); ofZ 2; ofZ 1] = ofZ 3
  /\ In (absMax max [ofZ (-3); ofZ 2; ofZ 1])
        (map abs [ofZ (-3); ofZ 2; ofZ 1])
  /\ Forall (fun v => le (abs v) (absMax max [ofZ (-3); ofZ 2; ofZ 1]))
            [ofZ (-3); ofZ 2; ofZ 1].
Proof.
  split; [reflexivity|].
  destruct (absMax_largest_absolute_value max [ofZ (-3); ofZ 2; ofZ 1])
    as (Hin & Hall & _).
  - discriminate.
  - repeat constructor; discriminate.
  - right. left. reflexivity.
  - repeat constructor.
  - split; assumption.
Defined.

End AbsMax.

(** ** The fill style *)

Section FillStyle.

Lemma addColorStops_line (g : CanvasGradient) (len idx : nat)
  (rest : list string) :
  let g' := addColorStops g len idx rest in
  gx0 g' = gx0 g /\ gy0 g' = gy0 g /\ gx1 g' = gx1 g /\ gy1 g' = gy1 g.
Proof.
  revert g idx. induction rest as [|c rest IH]; intros g idx; simpl; auto.
  destruct (IH (addColorStop g (ofNat idx / ofNat len) c) (S idx))
    as (H0 & H1 & H2 & H3).
  simpl in *. auto.
Qed.

Lemma addColorStops_length (g : CanvasGradient) (len idx : nat)
  (rest : list string) :
  List.length (colorStops (addColorStops g len idx rest))
  = (List.length (colorStops g) + List.length rest)%nat.
Proof.
  revert g idx. induction rest as [|c rest IH]; intros g idx; simpl.
  - lia.
  - rewrite IH. simpl. rewrite length_app. simpl. lia.
Qed.

Lemma addColorStops_keep (g : CanvasGradient) (len idx : nat)
  (rest : list string) (n : nat) (stop : num * string) :
  nth_error (colorStops g) n = Some stop ->
  nth_error (colorStops (addColorStops g len idx rest)) n = Some stop.
Proof.
  revert g idx. induction rest as [|c rest IH]; intros g idx H.
  - exact H.
  - cbn [addColorStops]. apply IH. unfold addColorStop. cbn [colorStops].
    rewrite nth_error_app1; [exact H|].
    apply nth_error_Some. congruence.
Qed.

Lemma addColorStops_nth (g : CanvasGradient) (len idx : nat)
  (rest : list string) (i : nat) (color : string) :
  nth_error rest i = Some color ->
  nth_error (colorStops (addColorStops g len idx rest))
            (List.length (colorStops g) + i)
  = Some (ofNat (idx + i) / ofNat len, color).
Proof.
  revert g idx i. induction rest as [|c rest IH]; intros g idx i H.
  - destruct i; discriminate.
  - destruct i as [|i]; cbn [addColorStops nth_error] in *.
    + injection H as ->. rewrite !Nat.add_0_r.
      apply addColorStops_keep. unfold addColorStop. cbn [colorStops].
      rewrite nth_error_app2, Nat.sub_diag; auto.
    + specialize (IH (addColorStop g (ofNat idx / ofNat len) c) (S idx) i H).
      unfold addColorStop at 2 in IH. cbn [colorStops] in IH.
      rewrite length_app in IH. cbn [List.length] in IH.
      replace (List.length (colorStops g) + S i)%nat
        with (List.length (colorStops g) + 1 + i)%nat by lia.
      replace (idx + S i)%nat with (S idx + i)%nat by lia. exact IH.
Qed.

Lemma Zpos_of_nat (k : nat) :
  (1 <= k)%nat -> Z.pos (Pos.of_nat k) = Z.of_nat k.
Proof.
  intros Hk. rewrite <- positive_nat_Z, Nat2Pos.id by lia. reflexivity.
Qed.

(** [index / length] is the rational [index / length]. *)
Lemma stop_offset (i k : nat) :
  (1 <= k)%nat -> ofNat i / ofNat k = ofQ (Z.of_nat i # Pos.of_nat k).
Proof.
  intros Hk. unfold ofNat, ofZ, ofQ, div.
  destruct (Qc_eq_dec (Q2Qc (inject_Z (Z.of_nat k))) 0) as [E|E].
  - exfalso.
    apply Q2Qc_eq_iff in E. unfold Qeq in E. simpl in E. lia.
  - apply Fin_inj_Qeq. rewrite this_div, !this_Q2Qc.
    rewrite Qmake_Qdiv, Zpos_of_nat by lia. reflexivity.
Qed.

Lemma stop_offset_below_one (i k : nat) :
  (i < k)%nat -> ofQ (Z.of_nat i # Pos.of_nat k) <> one.
Proof.
  intros Hik E. unfold ofQ, one, ofZ in E.
  assert (Hq : Q2Qc (Z.of_nat i # Pos.of_nat k) = Q2Qc (inject_Z 1))
    by congruence.
  apply Q2Qc_eq_iff in Hq. unfold Qeq in Hq. simpl in Hq.
  rewrite Zpos_of_nat in Hq by lia. lia.
Qed.

(** C1.  A string color is returned as it is, whatever the context.  For
    an array of [k >= 1] colors, [getFillStyle] returns a linear gradient
    from [(0, 0)] to [(0, ctx.canvas.height)] with exactly [k] stops, stop
    [i] carrying color [i] at offset [i / k], which is never [1]. *)
Theorem getFillStyle_gradient_stops (canvas : HTMLCanvasElement)
  (ctx : context2d) (colors : list string) (k : nat) :
  List.length colors = k -> (1 <= k)%nat ->
  (forall c s, getFillStyle c (ColorString s) = Normal (StyleColor s))
  /\ exists g,
      getFillStyle (Some (canvas, ctx)) (ColorArray colors)
      = Normal (StyleGradient g)
      /\ (gx0 g, gy0 g) = (zero, zero)
      /\ (gx1 g, gy1 g) = (zero, ofN (height canvas))
      /\ List.length (colorStops g) = k
      /\ forall i color,
          nth_error colors i = Some color ->
          nth_error (colorStops g) i
          = Some (ofQ (Z.of_nat i # Pos.of_nat k), color)
          /\ ofQ (Z.of_nat i # Pos.of_nat k) <> one.
Proof.
  intros Hlen Hk. split; [reflexivity|].
  eexists. split; [reflexivity|].
  set (g0 := createLinearGradient zero zero zero (ofN (height canvas))).
  destruct (addColorStops_line g0 (List.length colors) 0 colors)
    as (H0 & H1 & H2 & H3).
  rewrite H0, H1, H2, H3. repeat split.
  - rewrite addColorStops_length. simpl. exact Hlen.
  - rewrite <- stop_offset by exact Hk. rewrite Hlen.
    apply (addColorStops_nth g0 k 0 colors i color H).
  - apply stop_offset_below_one. rewrite <- Hlen.
    apply nth_error_Some. congruence.
Qed.

(** A gradient of two colors: stops at [0] and [1/2]. *)
Lemma getFillStyle_gradient_stops_witness :
  exists g,
    getFillStyle (Some (mkCanvas 0 100 100 None,
                        mkContext (StyleColor "#000000") []))
                 (ColorArray ["red"; "blue"]%string)
    = Normal (StyleGradient g)
    /\ List.length (colorStops g) = 2%nat
    /\ nth_error (colorStops g) 1 = Some (ofQ (1 # 2), "blue"%string).
Proof.
  destruct (getFillStyle_gradient_stops
              (mkCanvas 0 100 100 None)
              (mkContext (StyleColor "#000000") [])
              ["red"; "blue"]%string 2 eq_refl (le_S 1 1 (le_n 1)))
    as (_ & g & Hg & _ & _ & Hlen & Hnth).
  exists g. split; [exact Hg|]. split; [exact Hlen|].
  apply (Hnth 1%nat "blue"%string). reflexivity.
Defined.

End FillStyle.

(** ** Bars *)

Section Bars.

Lemma negative_not_zero (h : num) : ltb h zero = true -> eqb h zero = false.
Proof.
  intros H. destruct h; try reflexivity. apply ltb_Fin in H.
  cbn [eqb zero ofZ].
  destruct (Qc_eq_bool q (Q2Qc (inject_Z 0))) eqn:E; [|reflexivity].
  apply Qc_eq_bool_true in E. rewrite E in H. exfalso. revert H.
  apply Qlt_irrefl.
Qed.

Lemma negative_flip (h : num) : ltb h zero = true -> h * ofZ (-1) = abs h.
Proof.
  intros H. destruct h; try discriminate; [|reflexivity].
  apply ltb_Fin in H. simpl. apply Fin_inj_Qeq.
  rewrite this_mul, this_abs, Qabs_neg.
  - change (this (Q2Qc (inject_Z (-1)))) with (-1 # 1)%Q. ring.
  - change (this (Q2Qc (inject_Z 0))) with 0%Q in H. lra.
Qed.

Lemma negative_shift (y h : num) : ltb h zero = true -> y - abs h = y + h.
Proof.
  intros H. unfold sub. f_equal.
  destruct h; try discriminate; [|reflexivity].
  apply ltb_Fin in H. simpl. apply Fin_inj_Qeq.
  change (this (Q2Qc (inject_Z 0))) with 0%Q in H.
  rewrite this_opp, this_abs, Qabs_neg; lra.
Qed.

Lemma abs_negative_positive (h : num) :
  ltb h zero = true -> eqb (abs h) zero = false /\ ltb (abs h) zero = false.
Proof.
  intros H. destruct h; try discriminate; [|split; reflexivity].
  apply ltb_Fin in H. change (this (Q2Qc (inject_Z 0))) with 0%Q in H.
  assert (Hpos : (0 < Qabs q)%Q) by (rewrite Qabs_neg; lra).
  split.
  - cbn [abs eqb zero ofZ].
    destruct (Qc_eq_bool (Q2Qc (Qabs q)) (Q2Qc (inject_Z 0))) eqn:E;
      [|reflexivity].
    apply Qc_eq_bool_true in E. rewrite !this_Q2Qc in E.
    change (inject_Z 0) with 0%Q in E. lra.
  - apply ltb_Fin_false. rewrite this_abs.
    change (this (Q2Qc (inject_Z 0))) with 0%Q. lra.
Qed.

(** With a negative height [h] the rounded rectangle is traced from
    [y + h] with height [|h|]. *)
Lemma drawRoundedRect_negative (ctx : context2d) (x y width h radius : num) :
  ltb h zero = true ->
  drawRoundedRect ctx x y width h radius
  = emit ctx (roundedRectPath x (y + h) width (abs h) radius).
Proof.
  intros H. unfold drawRoundedRect.
  rewrite (negative_not_zero h H), H, (negative_flip h H),
    (negative_shift y h H).
  reflexivity.
Qed.

Lemma drawRoundedRect_flipped (ctx : context2d) (x y width h radius : num) :
  ltb h zero = true ->
  drawRoundedRect ctx x (y + h) width (abs h) radius
  = emit ctx (roundedRectPath x (y + h) width (abs h) radius).
Proof.
  intros H. unfold drawRoundedRect.
  destruct (abs_negative_positive h H) as [-> ->]. reflexivity.
Qed.

(** C7.  With a truthy radius and a negative height [h], [fillRects] at
    origin [y] leaves the tile in the state that [fillRects] with height
    [|h|] at origin [y + h] leaves it in: on each context the same
    rounded-rectangle path, [roundedRectPath x (y + h) width |h| radius],
    is traced and filled. *)
Theorem fillRects_negative_height (t : CanvasEntry)
  (x y width h radius : num) :
  truthy radius = true -> ltb h zero = true ->
  fillRects x y width h radius t
  = fillRects x (y + h) width (abs h) radius t
  /\ forall ctx,
      fillRectToContext (Some ctx) x y width h radius
      = Some (emit ctx (roundedRectPath x (y + h) width (abs h) radius)).
Proof.
  intros Hr Hh.
  assert (Hctx : forall c,
             fillRectToContext c x y width h radius
             = fillRectToContext c x (y + h) width (abs h) radius).
  { intros [c|]; [|reflexivity]. unfold fillRectToContext. rewrite Hr.
    now rewrite drawRoundedRect_negative, drawRoundedRect_flipped. }
  split.
  - unfold fillRects, bind, whenProgress. rewrite Hctx.
    cbn [hasProgressCanvas setWaveCtx].
    destruct (hasProgressCanvas t); [|reflexivity].
    now rewrite Hctx.
  - intros ctx. unfold fillRectToContext. rewrite Hr.
    now rewrite drawRoundedRect_negative.
Qed.

(** A bar of height [-20] hanging from [y = 50] is the bar of height [20]
    standing on [y = 30]. *)
Lemma fillRects_negative_height_witness :
  fillRects (ofZ 10) (ofZ 50) (ofZ 5) (ofZ (-20)) (ofZ 2) wholeTile
  = fillRects (ofZ 10) (ofZ 50 + ofZ (-20)) (ofZ 5) (abs (ofZ (-20))) (ofZ 2)
              wholeTile.
Proof.
  apply (fillRects_negative_height wholeTile (ofZ 10) (ofZ 50) (ofZ 5)
           (ofZ (-20)) (ofZ 2)); reflexivity.
Defined.

Lemma between_empty (a p : Qc) : between a a p = false.
Proof.
  unfold between.
  destruct (Qclt_le_dec p a) as [H|H]; reflexivity.
Qed.

(** A rectangle of height zero covers no point. *)
Lemma rectCovers_zero_height (x y width : num) (px py : Qc) :
  rectCovers x y width zero px py = false.
Proof.
  destruct x, y, width; try reflexivity.
  cbn [rectCovers zero ofZ].
  replace (q0 + Q2Qc (inject_Z 0))%Qc with q0
    by (change (Q2Qc (inject_Z 0)) with 0%Qc; ring).
  rewrite between_empty. apply andb_false_r.
Qed.

Lemma sameBitmap_refl (c : context2d) : sameBitmap c c.
Proof.
  split; [reflexivity|]. exists []. rewrite app_nil_r.
  split; [reflexivity|]. intros path. split; constructor.
Qed.

(** What [fillRectToContext] does to a context when the height is zero. *)
Lemma fillRectToContext_zero_height (c : context2d) (x y width radius : num) :
  exists c',
    fillRectToContext (Some c) x y width zero radius = Some c'
    /\ sameBitmap c c'.
Proof.
  unfold fillRectToContext. destruct (truthy radius).
  - exists c. split; [reflexivity | apply sameBitmap_refl].
  - eexists. split; [reflexivity|].
    split; [reflexivity|]. exists [FillRect x y width zero].
    split; [reflexivity|]. intros path. split.
    + constructor.
    + constructor; [|constructor]. intros px py.
      apply rectCovers_zero_height.
Qed.

Lemma sameSurface_refl (s : option surface) : sameSurface s s.
Proof.
  destruct s as [[el [c|]]|]; simpl; auto using sameBitmap_refl.
Qed.

Lemma sameSurface_fillRect_zero (s : option surface)
  (x y width radius : num) :
  sameSurface s
    (setContext s
       (fillRectToContext (match s with Some s => context s | None => None end)
                          x y width zero radius)).
Proof.
  destruct s as [[el [c|]]|]; simpl; auto.
  destruct (fillRectToContext_zero_height c x y width radius)
    as (c' & Hc' & Hsame).
  unfold fillRectToContext in Hc'. split; [reflexivity|].
  destruct (truthy radius); injection Hc' as <-; exact Hsame.
Qed.

(** C8.  For every tile and every [x], [y], [width] and [radius],
    [fillRects] with height [0] returns normally and leaves the bitmap of
    both surfaces as it was: with a truthy radius no call is made at all,
    otherwise the only call is a [fillRect] of height zero, which covers
    no point. *)
Theorem fillRects_zero_height (t : CanvasEntry) (x y width radius : num) :
  exists t',
    fillRects x y width zero radius t = (t', Normal tt)
    /\ sameSurface (wave t) (wave t')
    /\ sameSurface (progress t) (progress t')
    /\ (truthy radius = true -> t' = t).
Proof.
  unfold fillRects, bind, whenProgress. cbn [hasProgressCanvas setWaveCtx].
  destruct (hasProgressCanvas t) eqn:Hp.
  - eexists. split; [reflexivity|]. cbn [wave progress setProgressCtx].
    split; [apply sameSurface_fillRect_zero|].
    split; [apply sameSurface_fillRect_zero|].
    intros Hr. unfold progressCtx, waveCtx, setProgressCtx, setWaveCtx.
    cbn [wave progress start end_ hasProgressCanvas halfPixel].
    unfold fillRectToContext. rewrite Hr.
    destruct t as [[[? [?|]]|] [[? [?|]]|] ? ? ? ?]; reflexivity.
  - eexists. split; [reflexivity|]. cbn [wave progress].
    split; [apply sameSurface_fillRect_zero|].
    split; [apply sameSurface_refl|].
    intros Hr. unfold waveCtx, setWaveCtx.
    unfold fillRectToContext. rewrite Hr.
    destruct t as [[[? [?|]]|] [[? [?|]]|] ? ? ? ?]; reflexivity.
Qed.

End Bars.

(** ** The waveform *)

(** Equality of two closed numbers, by evaluation. *)
Ltac num_closed :=
  vm_compute; first [reflexivity | apply Fin_inj_Qeq; vm_compute; reflexivity].

(** Equality of two lists of calls whose coordinates are closed numbers, or
    a closed number plus a common term. *)
Ltac calls_closed :=
  repeat match goal with
         | |- @eq (list _) (_ :: _) (_ :: _) => apply f_equal2
         | |- @eq (list _) [] [] => reflexivity
         | |- @eq call (LineTo _ _) (LineTo _ _) => apply f_equal2
         | |- @eq call (MoveTo _ _) (MoveTo _ _) => apply f_equal2
         | |- @eq call ?c ?c => reflexivity
         | |- @eq num (?a + ?hp) (?b + ?hp) => apply (f_equal (fun v => v + hp))
         | |- @eq num _ _ => num_closed
         end.

Section Waveform.

Variables (offset : Z) (canvasHeight : N) (css : option num)
          (ctx : context2d) (progressSurface : option surface)
          (withProgress : bool) (hp : num).

Abbreviation example :=
  (exampleTile offset canvasHeight css ctx progressSurface withProgress hp).

Lemma example_first : lineFirst example twoSamples = zero.
Proof. num_closed. Qed.

Lemma example_last : lineLast example twoSamples = ofZ 3.
Proof. num_closed. Qed.

Lemma example_upward : upward zero (ofZ 3) = Some [zero; one; ofZ 2].
Proof.
  unfold upward, zero, ofZ.
  replace (Z.to_nat _) with 3%nat by (vm_compute; reflexivity).
  cbn [seq map]. f_equal; calls_closed.
Qed.

Lemma example_downward : downward (ofZ 3) zero = Some [ofZ 2; one; zero].
Proof.
  unfold downward, zero, ofZ.
  replace (Z.to_nat _) with 3%nat by (vm_compute; reflexivity).
  cbn [seq map]. f_equal; calls_closed.
Qed.

(** C3, amended.  For the series [[1, -1, 0.5, -0.5]], [absmax = 1],
    [halfH = 50], [offsetY = 0], the span [0, 1] and a wave canvas 100
    pixels wide, the window of samples is [0, 3) and the scale is
    [100 / (3 - 0 - 1) = 50]; the path goes from the zero line to the top
    vertex of the first sample at [y = 0], along the upper edge
    [0, 25, 50], back along the lower edge [50, 75, 100], to the bottom
    vertex of the first sample at [y = 100], and is filled. *)
Theorem drawLineToContext_example (start' end' : num) :
  lineScale 100 (lineFirst example twoSamples) (lineLast example twoSamples)
  = ofZ 50
  /\ drawLineToContext example (Some ctx) twoSamples one (ofZ 50) zero
                       start' end'
     = Normal (Some (emit ctx
         [ BeginPath;
           MoveTo zero (ofZ 50);
           LineTo zero zero;
           LineTo (zero + hp) zero;
           LineTo (ofZ 50 + hp) (ofZ 25);
           LineTo (ofZ 100 + hp) (ofZ 50);
           LineTo (ofZ 100 + hp) (ofZ 50);
           LineTo (ofZ 50 + hp) (ofZ 75);
           LineTo (zero + hp) (ofZ 100);
           LineTo zero (ofZ 100);
           ClosePath;
           Fill ])).
Proof.
  split.
  - rewrite example_first, example_last. num_closed.
  - unfold drawLineToContext. rewrite example_first, example_last.
    cbn [wave exampleTile element width halfPixel].
    rewrite example_upward, example_downward.
    cbn [map app]. unfold upperVertex, lowerVertex, emit.
    do 4 f_equal; calls_closed.
Qed.

End Waveform.

Section Windows.

Lemma ofZ_add (a b : Z) : ofZ a + ofZ b = ofZ (a + b).
Proof.
  unfold ofZ. cbn [add]. apply Fin_inj_Qeq.
  rewrite this_add, !this_Q2Qc, inject_Z_plus. reflexivity.
Qed.

Lemma lineLength_finite (peaks : list num) :
  lineLength peaks
  = Fin (Q2Qc (inject_Z (Z.of_nat (List.length peaks)) / 2)).
Proof.
  unfold lineLength, ofNat, ofZ, div.
  destruct (Qc_eq_dec (Q2Qc (inject_Z 2)) 0) as [E|E].
  - apply Q2Qc_eq_iff in E. discriminate.
  - apply Fin_inj_Qeq. rewrite this_div, !this_Q2Qc. reflexivity.
Qed.

Lemma round_length_times (peaks : list num) (x : Qc) :
  round (lineLength peaks * Fin x) = ofZ (sampleIndex peaks x).
Proof.
  rewrite lineLength_finite. cbn [mul round]. unfold sampleIndex.
  apply (f_equal ofZ). apply Qfloor_comp.
  rewrite this_add, this_mul, !this_Q2Qc. reflexivity.
Qed.

Lemma lineFirst_finite (t : CanvasEntry) (peaks : list num) (s : Qc) :
  start t = Fin s -> lineFirst t peaks = ofZ (sampleIndex peaks s).
Proof. intros H. unfold lineFirst. rewrite H. apply round_length_times. Qed.

Lemma lineLast_finite (t : CanvasEntry) (peaks : list num) (e : Qc) :
  end_ t = Fin e -> lineLast t peaks = ofZ (sampleIndex peaks e + 1).
Proof.
  intros H. unfold lineLast. rewrite H, round_length_times.
  apply ofZ_add.
Qed.

(** The upward loop between two integers visits the integers between
    them. *)
Lemma upward_integers (a b : Z) : upward (ofZ a) (ofZ b) = Some (indexRange a b).
Proof.
  unfold upward, ofZ, indexRange. f_equal.
  replace (Qceiling (Q2Qc (inject_Z b) - Q2Qc (inject_Z a))%Qc)
    with (b - a)%Z.
  - apply map_ext. intros k. apply Fin_inj_Qeq.
    rewrite this_add, !this_Q2Qc, inject_Z_plus. reflexivity.
  - rewrite <- (Qceiling_Z (b - a)). apply Qceiling_comp.
    rewrite this_sub, !this_Q2Qc. unfold Zminus.
    rewrite inject_Z_plus, inject_Z_opp. reflexivity.
Qed.

(** The downward loop between two integers visits them from the last
    one down. *)
Lemma downward_integers (a b : Z) :
  downward (ofZ b) (ofZ a)
  = Some (map (fun k => ofZ (b - 1 - Z.of_nat k)) (seq 0 (Z.to_nat (b - a)))).
Proof.
  unfold downward, ofZ. f_equal.
  replace (Qfloor (Q2Qc (inject_Z b) - Q2Qc (inject_Z 1)
                   - Q2Qc (inject_Z a))%Qc + 1)%Z
    with (b - a)%Z.
  - apply map_ext. intros k. apply Fin_inj_Qeq.
    rewrite !this_sub, !this_Q2Qc. unfold Zminus.
    rewrite !inject_Z_plus, !inject_Z_opp. reflexivity.
  - replace (b - a)%Z with (b - 1 - a + 1)%Z by lia. f_equal.
    rewrite <- (Qfloor_Z (b - 1 - a)). apply Qfloor_comp.
    rewrite !this_sub, !this_Q2Qc. unfold Zminus.
    rewrite !inject_Z_plus, !inject_Z_opp. reflexivity.
Qed.

Lemma sampleIndex_monotone (peaks : list num) (x y : Qc) :
  (x <= y)%Q -> (sampleIndex peaks x <= sampleIndex peaks y)%Z.
Proof.
  intros H. unfold sampleIndex. apply Qfloor_resp_le.
  assert (Hn : (0 <= inject_Z (Z.of_nat (List.length peaks)) / 2)%Q).
  { apply Qle_shift_div_l; [reflexivity|].
    rewrite Qmult_0_l. change 0%Q with (inject_Z 0).
    rewrite <- Zle_Qle. lia. }
  apply Qplus_le_l. rewrite !(Qmult_comm (_ / 2)).
  apply Qmult_le_compat_r; assumption.
Qed.

Lemma indexRange_last (lo hi : Z) :
  (lo < hi)%Z -> last (indexRange lo hi) NaN = ofZ (hi - 1).
Proof.
  intros H. unfold indexRange.
  replace (Z.to_nat (hi - lo)) with (S (Z.to_nat (hi - 1 - lo))) by lia.
  rewrite seq_S, map_app. cbn [map]. rewrite last_last.
  f_equal. lia.
Qed.

Lemma indexRange_first (lo hi : Z) :
  (lo < hi)%Z -> hd NaN (indexRange lo hi) = ofZ lo.
Proof.
  intros H. unfold indexRange.
  replace (Z.to_nat (hi - lo)) with (S (Z.to_nat (hi - 1 - lo))) by lia.
  cbn [seq map hd]. f_equal. lia.
Qed.

Lemma downward_is_reversed (n : nat) (a : Z) :
  map (fun k => ofZ (a + Z.of_nat n - 1 - Z.of_nat k)) (seq 0 n)
  = rev (map (fun k => ofZ (a + Z.of_nat k)) (seq 0 n)).
Proof.
  induction n as [|n IH].
  - reflexivity.
  - rewrite seq_S at 2. rewrite map_app, rev_app_distr. cbn [map rev app].
    cbn [seq map]. f_equal.
    + f_equal. lia.
    + rewrite <- IH, <- seq_shift, map_map. apply map_ext.
      intros k. f_equal. lia.
Qed.

Lemma downward_reverses_upward (a b : Z) :
  downward (ofZ b) (ofZ a) = Some (rev (indexRange a b)).
Proof.
  rewrite downward_integers. unfold indexRange. f_equal.
  destruct (Z_lt_le_dec a b) as [H|H].
  - rewrite <- downward_is_reversed. apply map_ext. intros k. f_equal. lia.
  - replace (Z.to_nat (b - a)) with 0%nat by lia. reflexivity.
Qed.

Lemma sampleIndex_nonnegative (peaks : list num) (x : Qc) :
  (0 <= x)%Q -> (0 <= sampleIndex peaks x)%Z.
Proof.
  intros H. unfold sampleIndex.
  change 0%Z with (Qfloor 0). apply Qfloor_resp_le.
  assert (Hn : (0 <= inject_Z (Z.of_nat (List.length peaks)) / 2)%Q).
  { apply Qle_shift_div_l; [reflexivity|].
    rewrite Qmult_0_l. change 0%Q with (inject_Z 0).
    rewrite <- Zle_Qle. lia. }
  assert (Hp : (0 <= inject_Z (Z.of_nat (List.length peaks)) / 2 * x)%Q)
    by (apply Qmult_le_0_compat; assumption).
  lra.
Qed.

Lemma sampleIndex_within_series (peaks : list num) (x : Qc) :
  (x <= 1)%Q -> (sampleIndex peaks x <= Z.of_nat (List.length peaks))%Z.
Proof.
  intros H.
  assert (Hn : (0 <= inject_Z (Z.of_nat (List.length peaks)) / 2)%Q).
  { apply Qle_shift_div_l; [reflexivity|].
    rewrite Qmult_0_l. change 0%Q with (inject_Z 0).
    rewrite <- Zle_Qle. lia. }
  assert (Hlen : (0 <= inject_Z (Z.of_nat (List.length peaks)))%Q).
  { change 0%Q with (inject_Z 0). rewrite <- Zle_Qle. lia. }
  assert (Hp : (inject_Z (Z.of_nat (List.length peaks)) / 2 * x
                <= inject_Z (Z.of_nat (List.length peaks)) / 2)%Q).
  { rewrite <- (Qmult_1_r (_ / 2)) at 2. rewrite !(Qmult_comm (_ / 2)).
    apply Qmult_le_compat_r; assumption. }
  assert (Hhalf : (inject_Z (Z.of_nat (List.length peaks)) / 2
                   <= inject_Z (Z.of_nat (List.length peaks)))%Q).
  { apply Qle_shift_div_r; [reflexivity|]. lra. }
  unfold sampleIndex.
  set (q := (inject_Z (Z.of_nat (List.length peaks)) / 2 * x + (1 # 2))%Q).
  assert (Hq : (q < inject_Z (Z.of_nat (List.length peaks) + 1))%Q).
  { unfold q. rewrite inject_Z_plus. change (inject_Z 1) with 1%Q. lra. }
  pose proof (Qfloor_le q) as Hf.
  assert (Hlt : (inject_Z (Qfloor q)
                 < inject_Z (Z.of_nat (List.length peaks) + 1))%Q) by lra.
  rewrite <- Zlt_Qlt in Hlt. lia.
Qed.

(** What [drawLineToContext] draws on a tile with a finite span and its
    wave canvas attached: the hull of the samples [first, ..., last - 1]. *)
Lemma drawLineToContext_hull (t : CanvasEntry) (w : surface)
  (ctx : context2d) (peaks : list num)
  (absmax halfH offsetY start' end' : num) (a b : Z) :
  wave t = Some w ->
  lineFirst t peaks = ofZ a -> lineLast t peaks = ofZ (b + 1) ->
  drawLineToContext t (Some ctx) peaks absmax halfH offsetY start' end'
  = Normal (Some (emit ctx
      (hullCalls peaks (ofZ a)
         (lineScale (width (element w)) (ofZ a) (ofZ (b + 1)))
         (halfPixel t) (halfH + offsetY) (absmax / halfH)
         (indexRange a (b + 1))))).
Proof.
  intros Hw Hfirst Hlast. unfold drawLineToContext.
  rewrite Hfirst, Hlast, Hw, upward_integers, downward_reverses_upward.
  reflexivity.
Qed.

(** C4.  Two tiles over the same series, with spans inside [[0, 1]] and
    their wave canvases attached, [A] ending where [B] starts (at the
    fraction [e]).  Both compute the same index [b = round(N * e)], all
    indices lie between [0] and the length of the series, and
    [drawLineToContext] draws on [A] the hull of exactly the samples
    [a, ..., b] and on [B] the hull of exactly the samples [b, ..., c]: the
    last sample [A] draws is the first sample [B] draws, and the vertices of
    both for that sample have the same ordinates. *)
Theorem adjacent_tiles_share_boundary_sample (A B : CanvasEntry)
  (wA wB : surface) (ctxA ctxB : context2d) (peaks : list num)
  (absmax halfH offsetY start' end' : num) (sa e eb : Qc) :
  wave A = Some wA -> wave B = Some wB ->
  start A = Fin sa -> end_ A = Fin e ->
  start B = Fin e -> end_ B = Fin eb ->
  (0 <= sa)%Q -> (sa <= e)%Q -> (e <= eb)%Q -> (eb <= 1)%Q ->
  exists a b c : Z,
    ((0 <= a)%Z /\ (a <= b)%Z /\ (b <= c)%Z
     /\ (c <= Z.of_nat (List.length peaks))%Z)
    /\ (lineFirst A peaks = ofZ a
        /\ round (lineLength peaks * Fin e) = ofZ b
        /\ lineLast A peaks = ofZ (b + 1)
        /\ lineFirst B peaks = ofZ b
        /\ lineLast B peaks = ofZ (c + 1))
    /\ drawLineToContext A (Some ctxA) peaks absmax halfH offsetY start' end'
       = Normal (Some (emit ctxA
           (hullCalls peaks (ofZ a)
              (lineScale (width (element wA)) (ofZ a) (ofZ (b + 1)))
              (halfPixel A) (halfH + offsetY) (absmax / halfH)
              (indexRange a (b + 1)))))
    /\ drawLineToContext B (Some ctxB) peaks absmax halfH offsetY start' end'
       = Normal (Some (emit ctxB
           (hullCalls peaks (ofZ b)
              (lineScale (width (element wB)) (ofZ b) (ofZ (c + 1)))
              (halfPixel B) (halfH + offsetY) (absmax / halfH)
              (indexRange b (c + 1)))))
    /\ last (indexRange a (b + 1)) NaN = ofZ b
    /\ hd NaN (indexRange b (c + 1)) = ofZ b
    /\ (exists xA,
          upperVertex peaks (ofZ a)
            (lineScale (width (element wA)) (ofZ a) (ofZ (b + 1)))
            (halfPixel A) (halfH + offsetY) (absmax / halfH) (ofZ b)
          = LineTo xA (halfH + offsetY
                       - peakHeight peaks (absmax / halfH) (ofZ 2 * ofZ b)))
    /\ (exists xB,
          upperVertex peaks (ofZ b)
            (lineScale (width (element wB)) (ofZ b) (ofZ (c + 1)))
            (halfPixel B) (halfH + offsetY) (absmax / halfH) (ofZ b)
          = LineTo xB (halfH + offsetY
                       - peakHeight peaks (absmax / halfH) (ofZ 2 * ofZ b))).
Proof.
  intros HwA HwB HsA HeA HsB HeB H0 Hle1 Hle2 H1.
  exists (sampleIndex peaks sa), (sampleIndex peaks e), (sampleIndex peaks eb).
  pose proof (sampleIndex_nonnegative peaks sa H0) as Ha.
  pose proof (sampleIndex_monotone peaks sa e Hle1) as Hab.
  pose proof (sampleIndex_monotone peaks e eb Hle2) as Hbc.
  pose proof (sampleIndex_within_series peaks eb H1) as Hc.
  pose proof (lineFirst_finite A peaks sa HsA) as HfA.
  pose proof (lineLast_finite A peaks e HeA) as HlA.
  pose proof (lineFirst_finite B peaks e HsB) as HfB.
  pose proof (lineLast_finite B peaks eb HeB) as HlB.
  split; [repeat split; assumption|].
  split; [repeat split; try assumption; apply round_length_times|].
  split; [apply (drawLineToContext_hull A wA ctxA); assumption|].
  split; [apply (drawLineToContext_hull B wB ctxB); assumption|].
  split; [rewrite indexRange_last by lia; f_equal; lia|].
  split; [apply indexRange_first; lia|].
  split; eexists; reflexivity.
Qed.

(** Two tiles that meet in the middle of a series of two samples: the left
    one draws the samples 0 and 1, the right one the samples 1 and 2. *)
Lemma adjacent_tiles_share_boundary_sample_witness :
  exists a b c : Z,
    (lineFirst (spanTile 0 (1 # 2)) twoSamples = ofZ a
     /\ lineLast (spanTile 0 (1 # 2)) twoSamples = ofZ (b + 1)
     /\ lineFirst (spanTile (1 # 2) 1) twoSamples = ofZ b
     /\ lineLast (spanTile (1 # 2) 1) twoSamples = ofZ (c + 1))
    /\ drawLineToContext (spanTile 0 (1 # 2)) (waveCtx (spanTile 0 (1 # 2)))
                         twoSamples one (ofZ 50) zero zero one
       = Normal (Some (emit (mkContext (StyleColor "#000000") [])
           (hullCalls twoSamples (ofZ a)
              (lineScale 100 (ofZ a) (ofZ (b + 1)))
              (ofQ (1 # 2)) (ofZ 50 + zero) (one / ofZ 50)
              (indexRange a (b + 1)))))
    /\ last (indexRange a (b + 1)) NaN = ofZ b
    /\ hd NaN (indexRange b (c + 1)) = ofZ b.
Proof.
  destruct (adjacent_tiles_share_boundary_sample
              (spanTile 0 (1 # 2)) (spanTile (1 # 2) 1)
              (mkSurface (mkCanvas 0 100 100 None)
                         (Some (mkContext (StyleColor "#000000") [])))
              (mkSurface (mkCanvas 0 100 100 None)
                         (Some (mkContext (StyleColor "#000000") [])))
              (mkContext (StyleColor "#000000") [])
              (mkContext (StyleColor "#000000") [])
              twoSamples one (ofZ 50) zero zero one
              (Q2Qc 0) (Q2Qc (1 # 2)) (Q2Qc 1)
              eq_refl eq_refl eq_refl eq_refl eq_refl eq_refl)
    as (a & b & c & _ & (HfA & _ & HlA & HfB & HlB) & HA & _ & Hlast & Hfirst
        & _).
  - unfold Qle. simpl. lia.
  - unfold Qle. simpl. lia.
  - unfold Qle. simpl. lia.
  - unfold Qle. simpl. lia.
  - exists a, b, c. repeat split; assumption.
Defined.

End Windows.

(** ** A span of length zero *)

Section ZeroSpan.










End ZeroSpan.

(** ** A tile without surfaces *)

Section Unattached.

Lemma setWaveCtx_same (t : CanvasEntry) : setWaveCtx t (waveCtx t) = t.
Proof. destruct t as [[[? ?]|] ? ? ? ? ?]; reflexivity. Qed.

Lemma setProgressCtx_same (t : CanvasEntry) :
  setProgressCtx t (progressCtx t) = t.
Proof. destruct t as [? [[? ?]|] ? ? ? ?]; reflexivity. Qed.

(** The guarded paths: without contexts, [fillRects] and [drawLines] do
    nothing and return normally. *)
Lemma fillRects_without_context (t : CanvasEntry)
  (x y width height radius : num) :
  waveCtx t = None -> progressCtx t = None ->
  fillRects x y width height radius t = (t, Normal tt).
Proof.
  intros Hw Hp. unfold fillRects, bind, whenProgress.
  rewrite Hw. cbn [fillRectToContext]. rewrite <- Hw, setWaveCtx_same.
  destruct (hasProgressCanvas t); [|reflexivity].
  rewrite Hp. cbn [fillRectToContext]. rewrite <- Hp, setProgressCtx_same.
  reflexivity.
Qed.

Lemma drawLines_without_context (t : CanvasEntry) (peaks : list num)
  (absmax halfH offsetY start' end' : num) :
  waveCtx t = None -> progressCtx t = None ->
  drawLines peaks absmax halfH offsetY start' end' t = (t, Normal tt).
Proof.
  intros Hw Hp. unfold drawLines, bind, whenProgress.
  rewrite Hw. cbn [drawLineToContext]. rewrite <- Hw, setWaveCtx_same.
  destruct (hasProgressCanvas t); [|reflexivity].
  rewrite Hp. cbn [drawLineToContext]. rewrite <- Hp, setProgressCtx_same.
  reflexivity.
Qed.

Lemma onWaveCtx_without_context (t : CanvasEntry)
  (f : HTMLCanvasElement -> context2d -> context2d) :
  waveCtx t = None -> onWaveCtx f t = (t, Throw TypeError).
Proof.
  unfold waveCtx, onWaveCtx. destruct (wave t) as [[el [c|]]|]; simpl;
    intros H; congruence.
Qed.

(** C2, on the code.  On a tile whose wave context is [null], [clearWave]
    and [setFillStyles] do not return: they throw a [TypeError] (the tile
    itself is left as it was). *)
Theorem clearWave_without_context_throws (t : CanvasEntry) :
  waveCtx t = None ->
  clearWave t = (t, Throw TypeError)
  /\ forall waveColor progressColor,
      setFillStyles waveColor progressColor t = (t, Throw TypeError).
Proof.
  intros Hw. split.
  - unfold clearWave, bind. rewrite onWaveCtx_without_context by exact Hw.
    reflexivity.
  - intros waveColor progressColor. unfold setFillStyles, bind, liftC.
    assert (Hc : withCanvas (wave t) = None).
    { unfold waveCtx in Hw. unfold withCanvas.
      destruct (wave t) as [[el [c|]]|]; simpl in *; congruence. }
    rewrite Hc. destruct waveColor; cbn [getFillStyle]; try reflexivity.
    rewrite onWaveCtx_without_context by exact Hw. reflexivity.
Qed.

(** A tile fresh from the constructor. *)
Lemma clearWave_without_context_throws_witness :
  clearWave constructor = (constructor, Throw TypeError)
  /\ forall waveColor progressColor,
      setFillStyles waveColor progressColor constructor
      = (constructor, Throw TypeError).
Proof. apply clearWave_without_context_throws. reflexivity. Defined.

End Unattached.

(** ** The span of a tile *)

Section Dimensions.

Lemma positive_offset_over_zero (o : Z) :
  (0 < o)%Z -> ofZ o / zero = PInf.
Proof.
  intros H. unfold ofZ, zero, div.
  destruct (Qc_eq_dec (Q2Qc (inject_Z 0)) 0) as [_|E];
    [|exfalso; apply E; reflexivity].
  rewrite sgn_Q2Qc.
  assert (Hq : (inject_Z o ?= 0)%Q = Gt).
  { apply Qgt_alt. change 0%Q with (inject_Z 0). rewrite <- Zlt_Qlt. exact H. }
  rewrite Hq. reflexivity.
Qed.

(** C9, on the code.  With a total width of [0] the guard [|| 0] gives the
    start [0] only to a canvas at the left edge: for a canvas laid out to
    the right of the origin ([offsetLeft > 0]) the quotient
    [offsetLeft / 0] is [+Infinity], which the guard lets through, and
    [updateDimensions] sets [start] to [+Infinity], not to [0]. *)
Theorem updateDimensions_zero_total_width (t : CanvasEntry) (s : surface)
  (elementWidth : num) (w h : N) :
  wave t = Some s -> (0 < offsetLeft (element s))%Z ->
  start (fst (updateDimensions elementWidth zero w h t)) = PInf
  /\ start (fst (updateDimensions elementWidth zero w h t)) <> zero.
Proof.
  intros Hw Hoff.
  assert (H : start (fst (updateDimensions elementWidth zero w h t)) = PInf).
  { unfold updateDimensions. rewrite Hw.
    rewrite (positive_offset_over_zero _ Hoff).
    destruct (hasProgressCanvas t); [destruct (progress t)|]; reflexivity. }
  rewrite H. split; [reflexivity | discriminate].
Qed.

(** A canvas 5 pixels from the left. *)
Lemma updateDimensions_zero_total_width_witness :
  start (fst (updateDimensions (ofZ 10) zero 100 50 offsetTile)) = PInf
  /\ start (fst (updateDimensions (ofZ 10) zero 100 50 offsetTile)) <> zero.
Proof.
  apply (updateDimensions_zero_total_width offsetTile
           (mkSurface (mkCanvas 5 0 0 None) None) (ofZ 10) 100 50);
    reflexivity.
Defined.

Lemma or_zero_finite (q : Qc) : or (Fin q) zero = Fin q.
Proof.
  unfold or, truthy. destruct (Qc_eq_bool q 0) eqn:E; [|reflexivity].
  apply Qc_eq_bool_correct in E. subst. apply Fin_inj_Qeq. reflexivity.
Qed.

(** Where the guard is right.  With the wave canvas attached,
    [updateDimensions] sets [start] to [offsetLeft / totalWidth] when the
    total width is a number other than zero, and to [0] when the total
    width and the left offset are both zero; [end] is computed from that
    start as [start + elementWidth / totalWidth]. *)
Lemma updateDimensions_span (t : CanvasEntry) (s : surface)
  (elementWidth totalWidth : num) (w h : N) :
  wave t = Some s ->
  let t' := fst (updateDimensions elementWidth totalWidth w h t) in
  (forall total : Qc, totalWidth = Fin total -> total <> 0%Qc ->
     start t' = Fin (Q2Qc (inject_Z (offsetLeft (element s))) / total)%Qc)
  /\ (totalWidth = zero -> offsetLeft (element s) = 0%Z -> start t' = zero)
  /\ end_ t' = start t' + elementWidth / totalWidth.
Proof.
  intros Hw t'.
  assert (Hstart : start t'
                   = or (ofZ (offsetLeft (element s)) / totalWidth) zero).
  { unfold t', updateDimensions. rewrite Hw.
    destruct (hasProgressCanvas t); [destruct (progress t)|]; reflexivity. }
  assert (Hend : end_ t' = start t' + elementWidth / totalWidth).
  { rewrite Hstart. unfold t', updateDimensions. rewrite Hw.
    destruct (hasProgressCanvas t); [destruct (progress t)|]; reflexivity. }
  split; [|split].
  - intros total -> Hne. rewrite Hstart. unfold ofZ, div.
    destruct (Qc_eq_dec total 0) as [E|_]; [contradiction|].
    apply or_zero_finite.
  - intros -> Hoff. rewrite Hstart, Hoff. reflexivity.
  - exact Hend.
Qed.

End Dimensions.

(** ** The exported image *)

Section ExportFacts.

Variable toDataURL : surface -> string -> num -> completion string.
Variable toBlob : surface -> string -> num -> toBlobOutcome.

(** C5, amended.  With the wave canvas attached: in mode ["dataURL"]
    [getImage] returns the string [toDataURL] produced; in mode ["blob"]
    it returns a promise, which is pending on return and is fulfilled with
    what [toBlob] hands to its callback, the blob or [null] when the image
    could not be encoded; the promise is rejected when [toBlob] itself
    throws. *)
Theorem getImage_modes (t : CanvasEntry) (s : surface) (format : string)
  (quality : num) :
  wave t = Some s ->
  (forall url,
      toDataURL s format quality = Normal url ->
      getImage toDataURL toBlob t format quality "dataURL"
      = Normal (DataURL url))
  /\ exists p,
      getImage toDataURL toBlob t format quality "blob"
      = Normal (BlobPromise p)
      /\ (forall result,
             toBlob s format quality = ToBlobCalls result ->
             onReturn p = Pending /\ settled p = Fulfilled result)
      /\ (forall e,
             toBlob s format quality = ToBlobThrows e ->
             settled p = Rejected e).
Proof.
  intros Hw. split.
  - intros url Hurl. unfold getImage. cbn [String.eqb Ascii.eqb Bool.eqb].
    rewrite Hw, Hurl. reflexivity.
  - eexists. split; [reflexivity|]. unfold blobPromise. rewrite Hw.
    split.
    + intros result ->. split; reflexivity.
    + intros e ->. reflexivity.
Qed.

End ExportFacts.

(** C5, the claim as stated fails: when the image cannot be encoded, the
    promise of the ["blob"] mode is not rejected; it is fulfilled with
    [null]. *)
Lemma getImage_encode_failure_counterexample :
  exists p,
    getImage urlEncoder failingEncoder wholeTile "image/png" (ofQ (92 # 100))
             "blob"
    = Normal (BlobPromise p)
    /\ settled p = Fulfilled None
    /\ forall e, settled p <> Rejected e.
Proof.
  eexists. split; [reflexivity|]. split; [reflexivity|]. discriminate.
Qed.

Lemma getImage_modes_witness :
  getImage urlEncoder failingEncoder wholeTile "image/png" (ofQ (92 # 100))
           "dataURL"
  = Normal (DataURL "data:image/png;base64,")
  /\ exists p,
      getImage urlEncoder failingEncoder wholeTile "image/png" (ofQ (92 # 100))
               "blob"
      = Normal (BlobPromise p)
      /\ onReturn p = Pending.
Proof.
  destruct (getImage_modes urlEncoder failingEncoder wholeTile
              (mkSurface (mkCanvas 0 100 100 None)
                         (Some (mkContext (StyleColor "#000000") [])))
              "image/png" (ofQ (92 # 100)) eq_refl) as (Hurl & p & Hp & Hcalls & _).
  split.
  - apply Hurl. reflexivity.
  - exists p. split; [exact Hp|]. apply (Hcalls None). reflexivity.
Defined.

(** C3, the claim as stated fails: the scale of the example is not 100. *)
Lemma drawLineToContext_example_scale_counterexample :
  lineScale 100 (lineFirst wholeTile twoSamples) (lineLast wholeTile twoSamples)
  = ofZ 50
  /\ lineScale 100 (lineFirst wholeTile twoSamples)
                 (lineLast wholeTile twoSamples)
     <> ofZ 100.
Proof.
  assert (H : lineScale 100 (lineFirst wholeTile twoSamples)
                         (lineLast wholeTile twoSamples) = ofZ 50)
    by num_closed.
  split; [exact H|]. rewrite H. unfold ofZ. intros E.
  assert (Hq : Q2Qc (inject_Z 50) = Q2Qc (inject_Z 100)) by congruence.
  apply Q2Qc_eq_iff in Hq. discriminate Hq.
Qed.

(** * Further properties of the code *)

(** ** util/min.js *)

Section MinFacts.

Import Util.

(** For a non-empty array of numbers (no [NaN]), [min] returns an element of
    the array that no element is below. *)
Theorem min_smallest (values : list num) :
  values <> [] -> Forall notNaN values ->
  In (min values) values /\ Forall (le (min values)) values.
Proof.
  intros Hne Hall.
  destruct (min_least values Hne Hall) as (_ & Hin & Hle). split; assumption.
Qed.

(** The example of the source: [min([1, 2, 3])] is an element below all. *)
Lemma min_smallest_witness :
  In (min [ofZ 1; ofZ 2; ofZ 3]) [ofZ 1; ofZ 2; ofZ 3]
  /\ Forall (le (min [ofZ 1; ofZ 2; ofZ 3])) [ofZ 1; ofZ 2; ofZ 3].
Proof.
  apply min_smallest.
  - discriminate.
  - repeat constructor; discriminate.
Defined.

Lemma min_fold_skips_NaN (values : list num) (acc : num) :
  fold_left (fun smallest v => if ltb v smallest then v else smallest)
            values acc
  = fold_left (fun smallest v => if ltb v smallest then v else smallest)
              (filter (fun v => negb (isNaN v)) values) acc.
Proof.
  revert acc. induction values as [|v vs IH]; intros acc; [reflexivity|].
  destruct v; cbn [filter isNaN negb fold_left]; try apply IH.
Qed.

(** [min] passes over the [NaN] entries of the array: it returns what it
    returns for the array without them, and [+Infinity] when nothing else is
    in the array (in particular for the empty array). *)
Theorem min_ignores_NaN (values : list num) :
  min values = min (filter (fun v => negb (isNaN v)) values)
  /\ min [] = PInf
  /\ min (map (fun _ => NaN) values) = PInf.
Proof.
  split; [apply min_fold_skips_NaN|]. split; [reflexivity|].
  unfold min. rewrite min_fold_skips_NaN.
  replace (filter (fun v => negb (isNaN v)) (map (fun _ => NaN) values))
    with (@nil num); [reflexivity|].
  induction values as [|v vs IH]; [reflexivity | exact IH].
Qed.

End MinFacts.

(** ** util/style.js *)

Section StyleFacts.

Import StyleUtil.
Local Open Scope string_scope.

Lemma getProperty_setProperty (el : HTMLElement) (prop value other : string) :
  getProperty (declarations (setProperty el prop value)) other
  = if String.eqb prop other then value
    else getProperty (declarations el) other.
Proof. reflexivity. Qed.

(** One step of the loop: the property visited gets its value, the others
    keep theirs. *)
Lemma styleStep_get (styles : list (string * string)) (el : HTMLElement)
  (prop other : string) :
  getProperty (declarations (styleStep styles el prop)) other
  = if String.eqb prop other then getProperty styles prop
    else getProperty (declarations el) other.
Proof.
  unfold styleStep.
  destruct (String.eqb (getProperty (declarations el) prop)
                       (getProperty styles prop)) eqn:E.
  - destruct (String.eqb prop other) eqn:Ep; [|reflexivity].
    apply String.eqb_eq in E, Ep. subst. exact E.
  - apply getProperty_setProperty.
Qed.

Lemma style_fold_get (styles : list (string * string)) (props : list string)
  (el : HTMLElement) (other : string) :
  getProperty (declarations (fold_left (styleStep styles) props el)) other
  = if in_dec string_dec other props then getProperty styles other
    else getProperty (declarations el) other.
Proof.
  revert el. induction props as [|p ps IH]; intros el; [reflexivity|].
  cbn [fold_left]. rewrite IH, styleStep_get.
  destruct (in_dec string_dec other ps) as [Hin|Hnin].
  - destruct (in_dec string_dec other (p :: ps)) as [_|Hn]; [reflexivity|].
    exfalso. apply Hn. now right.
  - destruct (String.eqb p other) eqn:Ep.
    + apply String.eqb_eq in Ep. subst.
      destruct (in_dec string_dec other (other :: ps)) as [_|Hn];
        [reflexivity|]. exfalso. apply Hn. now left.
    + apply String.eqb_neq in Ep.
      destruct (in_dec string_dec other (p :: ps)) as [[H|H]|_];
        [contradiction | contradiction | reflexivity].
Qed.

(** After [style(el, styles)] a property named in [styles] reads as
    [styles] gives it, and every property that [styles] does not name reads
    as before. *)
Theorem style_sets_the_named_properties (el : HTMLElement)
  (styles : list (string * string)) (prop : string) :
  In prop (map fst styles) ->
  getProperty (declarations (style el styles)) prop = getProperty styles prop
  /\ forall other,
      ~ In other (map fst styles) ->
      getProperty (declarations (style el styles)) other
      = getProperty (declarations el) other.
Proof.
  intros Hin. unfold style. split.
  - rewrite style_fold_get.
    destruct (in_dec string_dec prop (map fst styles));
      [reflexivity | contradiction].
  - intros other Hother. rewrite style_fold_get.
    destruct (in_dec string_dec other (map fst styles));
      [contradiction | reflexivity].
Qed.

(** The call of [updateDimensions], on an element that had a color. *)
Lemma style_sets_the_named_properties_witness :
  getProperty
    (declarations (style (mkElement [("color", "red")] 1)
                         [("width", "100px")]))
    "width" = "100px"%string
  /\ getProperty
       (declarations (style (mkElement [("color", "red")] 1)
                            [("width", "100px")]))
       "color" = "red"%string.
Proof.
  destruct (style_sets_the_named_properties
              (mkElement [("color", "red")] 1) [("width", "100px")] "width")
    as (Hset & Hkeep).
  - left. reflexivity.
  - split; [exact Hset|]. apply (Hkeep "color"%string).
    intros [H|[]]. discriminate H.
Defined.

Lemma styleStep_settled (styles : list (string * string)) (el : HTMLElement)
  (prop : string) :
  getProperty (declarations el) prop = getProperty styles prop ->
  styleStep styles el prop = el.
Proof.
  intros H. unfold styleStep. rewrite H, String.eqb_refl. reflexivity.
Qed.

Lemma style_fold_settled (styles : list (string * string))
  (props : list string) (el : HTMLElement) :
  (forall p, In p props ->
             getProperty (declarations el) p = getProperty styles p) ->
  fold_left (styleStep styles) props el = el.
Proof.
  induction props as [|p ps IH]; intros H; [reflexivity|].
  cbn [fold_left]. rewrite styleStep_settled by (apply H; now left).
  apply IH. intros q Hq. apply H. now right.
Qed.

(** On a style store that gives back the strings assigned to it (values
    the store does not rewrite, such as ['100px']), applying the same styles
    again changes nothing and assigns nothing: the test
    [el.style[prop] !== styles[prop]] holds back every assignment. *)
Theorem style_twice (el : HTMLElement) (styles : list (string * string)) :
  style (style el styles) styles = style el styles
  /\ assignments (style (style el styles) styles)
     = assignments (style el styles).
Proof.
  assert (H : style (style el styles) styles = style el styles).
  { unfold style at 1. apply style_fold_settled. intros p Hp.
    unfold style. rewrite style_fold_get.
    destruct (in_dec string_dec p (map fst styles));
      [reflexivity | contradiction]. }
  rewrite H. split; reflexivity.
Qed.

End StyleFacts.

(** ** Fill styles *)

Section FillStyleErrors.

Local Open Scope string_scope.

(** [getFillStyle] either returns a fill style or throws a [TypeError], and
    it throws exactly when the color is [null], or is not a string while
    the context is [null]; a string color never needs the context. *)
Theorem getFillStyle_throws_iff (ctx : option (HTMLCanvasElement * context2d))
  (color : colorArg) :
  ((exists s, getFillStyle ctx color = Normal s)
   \/ getFillStyle ctx color = Throw TypeError)
  /\ (getFillStyle ctx color = Throw TypeError
      <-> color = ColorNull
          \/ (ctx = None /\ exists colors, color = ColorArray colors)).
Proof.
  destruct color as [s|colors|], ctx as [[el c]|]; cbn [getFillStyle]; split;
    try (left; eexists; reflexivity); try (right; reflexivity);
    split; intros H; try discriminate H; try reflexivity;
    try (left; reflexivity); try (right; split; [reflexivity|eexists; reflexivity]).
  - destruct H as [H|[H _]]; discriminate H.
  - destruct H as [H|[_ [cs H]]]; discriminate H.
  - destruct H as [H|[H _]]; discriminate H.
Qed.

(** Without a progress canvas the progress color is not looked at: with the
    wave context attached and a wave color that is not [null],
    [setFillStyles] sets the wave fill style and returns normally whatever
    the progress color is, [null] included. *)
Theorem setFillStyles_ignores_progress_color (el : HTMLCanvasElement)
  (ctx : context2d) (prog : option surface) (s e hp : num)
  (waveColor progressColor : colorArg) :
  waveColor <> ColorNull ->
  exists style,
    getFillStyle (Some (el, ctx)) waveColor = Normal style
    /\ setFillStyles waveColor progressColor
         (mkEntry (Some (mkSurface el (Some ctx))) prog s e false hp)
       = (mkEntry (Some (mkSurface el (Some (setFillStyle ctx style))))
                  prog s e false hp,
          Normal tt).
Proof.
  intros Hw. destruct waveColor as [c|colors|]; [| |contradiction];
    eexists; split; reflexivity.
Qed.

Lemma setFillStyles_ignores_progress_color_witness :
  setFillStyles (ColorString "#555") ColorNull wholeTile
  = (mkEntry (Some (mkSurface (mkCanvas 0 100 100 None)
                              (Some (mkContext (StyleColor "#555") []))))
             None zero one false (ofQ (1 # 2)),
     Normal tt).
Proof.
  destruct (setFillStyles_ignores_progress_color
              (mkCanvas 0 100 100 None) (mkContext (StyleColor "#000000") [])
              None zero one (ofQ (1 # 2)) (ColorString "#555") ColorNull)
    as (style & Hstyle & Hset); [discriminate|].
  injection Hstyle as <-. exact Hset.
Defined.

(** With a progress canvas, a [null] progress color (which the
    documentation of [setFillStyles] allows) makes it throw a [TypeError]
    after the wave fill style has been set. *)
Theorem setFillStyles_null_progress_color (el el' : HTMLCanvasElement)
  (ctx ctx' : context2d) (s e hp : num) (waveColor : colorArg) :
  waveColor <> ColorNull ->
  exists style,
    getFillStyle (Some (el, ctx)) waveColor = Normal style
    /\ setFillStyles waveColor ColorNull
         (mkEntry (Some (mkSurface el (Some ctx)))
                  (Some (mkSurface el' (Some ctx'))) s e true hp)
       = (mkEntry (Some (mkSurface el (Some (setFillStyle ctx style))))
                  (Some (mkSurface el' (Some ctx'))) s e true hp,
          Throw TypeError).
Proof.
  intros Hw. destruct waveColor as [c|colors|]; [| |contradiction];
    eexists; split; reflexivity.
Qed.

Lemma setFillStyles_null_progress_color_witness :
  snd (setFillStyles (ColorString "#555") ColorNull progressTile)
  = Throw TypeError
  /\ waveCtx (fst (setFillStyles (ColorString "#555") ColorNull progressTile))
     = Some (mkContext (StyleColor "#555") []).
Proof.
  destruct (setFillStyles_null_progress_color
              (mkCanvas 0 100 100 None) (mkCanvas 0 100 100 None)
              (mkContext (StyleColor "#000000") [])
              (mkContext (StyleColor "#000000") [])
              zero one (ofQ (1 # 2)) (ColorString "#555"))
    as (style & Hstyle & Hset); [discriminate|].
  injection Hstyle as <-. unfold progressTile. rewrite Hset.
  split; reflexivity.
Defined.

End FillStyleErrors.

(** ** Clearing and transforming *)

Section ClearAndTransform.

Lemma between_from_zero (w : N) (p : Qc) :
  between (Q2Qc (inject_Z 0))
          (Q2Qc (inject_Z 0) + Q2Qc (inject_Z (Z.of_N w)))%Qc p = true
  <-> (0 <= p)%Q /\ (p < inject_Z (Z.of_N w))%Q.
Proof.
  assert (Hw : (0 <= inject_Z (Z.of_N w))%Q).
  { change 0%Q with (inject_Z 0). rewrite <- Zle_Qle. lia. }
  assert (Hb : (this (Q2Qc (inject_Z 0) + Q2Qc (inject_Z (Z.of_N w)))%Qc
                == inject_Z (Z.of_N w))%Q).
  { rewrite this_add, !this_Q2Qc. change (inject_Z 0) with 0%Q. ring. }
  unfold between.
  destruct (Qclt_le_dec p (Q2Qc (inject_Z 0))) as [H0|H0];
    destruct (Qclt_le_dec p _) as [H1|H1];
    unfold Qclt, Qcle in *; rewrite ?Hb in *;
    change (this (Q2Qc (inject_Z 0))) with 0%Q in *; cbn [orb];
    split; intros H; try discriminate H; try reflexivity;
    try (destruct H; exfalso; lra); try (split; lra).
Qed.

Lemma wholeBitmap_covers (el : HTMLCanvasElement) (px py : Qc) :
  callCovers (wholeBitmap el) px py = true
  <-> ((0 <= px)%Q /\ (px < inject_Z (Z.of_N (width el)))%Q)
      /\ ((0 <= py)%Q /\ (py < inject_Z (Z.of_N (height el)))%Q).
Proof.
  unfold wholeBitmap, callCovers, rectCovers, zero, ofN, ofZ.
  rewrite andb_true_iff, !between_from_zero. reflexivity.
Qed.

Lemma identity_point (x y : Qc) :
  transformPoint identityMatrix (Fin x) (Fin y) = (Fin x, Fin y).
Proof.
  unfold transformPoint, identityMatrix, zero, one, ofZ. cbn [mul add].
  change (Q2Qc (inject_Z 0)) with 0%Qc. change (Q2Qc (inject_Z 1)) with 1%Qc.
  f_equal; f_equal; ring.
Qed.

Lemma swap_point (x y : Qc) :
  transformPoint swapMatrix (Fin x) (Fin y) = (Fin y, Fin x).
Proof.
  unfold transformPoint, swapMatrix, zero, one, ofZ. cbn [mul add].
  change (Q2Qc (inject_Z 0)) with 0%Qc. change (Q2Qc (inject_Z 1)) with 1%Qc.
  f_equal; f_equal; ring.
Qed.

(** [clearWave] on a tile with its contexts attached returns normally after
    one [clearRect(0, 0, width, height)] on the wave context, and one on the
    progress context when the tile has a progress canvas.  The rectangle is
    taken in the user space of the context: under the identity transform it
    covers exactly the points of the bitmap, [0 <= x < width] and
    [0 <= y < height]; under the transform [applyCanvasTransforms(true)]
    sets it covers the transposed rectangle, [0 <= x < height] and
    [0 <= y < width]. *)
Theorem clearWave_rectangle_under_transform (el el' : HTMLCanvasElement)
  (ctx ctx' : context2d) (s e hp : num) :
  clearWave (mkEntry (Some (mkSurface el (Some ctx)))
                     (Some (mkSurface el' (Some ctx'))) s e true hp)
  = (mkEntry (Some (mkSurface el (Some (emit ctx [wholeBitmap el]))))
             (Some (mkSurface el' (Some (emit ctx' [wholeBitmap el']))))
             s e true hp,
     Normal tt)
  /\ (forall prog,
        clearWave (mkEntry (Some (mkSurface el (Some ctx))) prog s e false hp)
        = (mkEntry (Some (mkSurface el (Some (emit ctx [wholeBitmap el]))))
                   prog s e false hp,
           Normal tt))
  /\ (forall px py : Qc,
        deviceCovers identityMatrix (wholeBitmap el) px py
        <-> ((0 <= px)%Q /\ (px < inject_Z (Z.of_N (width el)))%Q)
            /\ ((0 <= py)%Q /\ (py < inject_Z (Z.of_N (height el)))%Q))
  /\ (forall px py : Qc,
        deviceCovers swapMatrix (wholeBitmap el) px py
        <-> ((0 <= px)%Q /\ (px < inject_Z (Z.of_N (height el)))%Q)
            /\ ((0 <= py)%Q /\ (py < inject_Z (Z.of_N (width el)))%Q)).
Proof.
  split; [reflexivity|]. split; [reflexivity|]. split.
  - intros px py. unfold deviceCovers. split.
    + intros (ux & uy & Hc & Hm). rewrite identity_point in Hm.
      injection Hm as -> ->. apply wholeBitmap_covers. exact Hc.
    + intros H. exists px, py. split; [|apply identity_point].
      apply wholeBitmap_covers. exact H.
  - intros px py. unfold deviceCovers. split.
    + intros (ux & uy & Hc & Hm). rewrite swap_point in Hm.
      injection Hm as -> ->. apply wholeBitmap_covers in Hc. tauto.
    + intros H. exists py, px. split; [|apply swap_point].
      apply wholeBitmap_covers. tauto.
Qed.

(** On a tile that has a progress canvas but no progress context,
    [clearWave] clears the wave canvas and then throws a [TypeError]. *)
Theorem clearWave_without_progress_context (t : CanvasEntry)
  (el : HTMLCanvasElement) (ctx : context2d) :
  wave t = Some (mkSurface el (Some ctx)) ->
  hasProgressCanvas t = true ->
  progressCtx t = None ->
  clearWave t
  = (setWaveCtx t (Some (emit ctx [wholeBitmap el])), Throw TypeError).
Proof.
  destruct t as [w p s e b hp]. cbn [wave hasProgressCanvas].
  intros -> -> Hc. unfold progressCtx in Hc. cbn [progress] in Hc.
  destruct p as [[el' [c'|]]|]; simpl in Hc; try discriminate Hc;
    reflexivity.
Qed.

Lemma clearWave_without_progress_context_witness :
  clearWave halfAttachedTile
  = (setWaveCtx halfAttachedTile
       (Some (emit (mkContext (StyleColor "#000000") [])
                   [wholeBitmap (mkCanvas 0 100 100 None)])),
     Throw TypeError).
Proof.
  apply (clearWave_without_progress_context halfAttachedTile
           (mkCanvas 0 100 100 None) (mkContext (StyleColor "#000000") []));
    reflexivity.
Defined.

(** [applyCanvasTransforms(false)] leaves every tile as it is, attached or
    not.  [applyCanvasTransforms(true)], called in two passes on a tile with
    its contexts attached, leaves on the wave context (and on the progress
    context of a tile with a progress canvas) the transform that exchanges
    the coordinates of a point: the second pass replaces the transform of
    the first, the two do not multiply into the identity. *)
Theorem applyCanvasTransforms_in_two_passes (el el' : HTMLCanvasElement)
  (ctx ctx' : context2d) (s e hp : num) (b : bool) :
  (forall t, applyCanvasTransforms false t = (t, Normal tt))
  /\ exists t2 c2,
      (applyCanvasTransforms true ;; applyCanvasTransforms true)
        (mkEntry (Some (mkSurface el (Some ctx)))
                 (Some (mkSurface el' (Some ctx'))) s e b hp)
      = (t2, Normal tt)
      /\ waveCtx t2 = Some c2
      /\ currentTransform (calls c2) = swapMatrix
      /\ (if b
          then exists c2', progressCtx t2 = Some c2'
                           /\ currentTransform (calls c2') = swapMatrix
          else progressCtx t2 = Some ctx')
      /\ forall x y : Qc,
          transformPoint swapMatrix (Fin x) (Fin y) = (Fin y, Fin x).
Proof.
  split; [reflexivity|]. destruct b.
  - do 2 eexists. split; [reflexivity|]. split; [reflexivity|]. split.
    + cbn [calls emit]. unfold currentTransform.
      rewrite !fold_left_app. reflexivity.
    + split; [|apply swap_point]. eexists. split; [reflexivity|].
      cbn [calls emit]. unfold currentTransform.
      rewrite !fold_left_app. reflexivity.
  - do 2 eexists. split; [reflexivity|]. split; [reflexivity|]. split.
    + cbn [calls emit]. unfold currentTransform.
      rewrite !fold_left_app. reflexivity.
    + split; [reflexivity | apply swap_point].
Qed.

End ClearAndTransform.

(** ** Dimensions *)

Section DimensionFacts.

Lemma resize_result (el : HTMLCanvasElement) (elementWidth : num) (w h : N) :
  resize el elementWidth w h
  = mkCanvas (offsetLeft el) w h (Some elementWidth).
Proof.
  unfold resize, style. cbn [styleWidth offsetLeft width height].
  destruct (styleWidth el) as [old|]; [|reflexivity].
  destruct (num_eq_dec old elementWidth) as [->|_]; reflexivity.
Qed.

(** The two ways [updateDimensions] fails.  Without a wave canvas it throws
    a [TypeError] and leaves the tile as it was.  On a tile that has a
    progress canvas by its flag but none attached, it throws a [TypeError]
    after it has set the span and resized the wave canvas. *)
Theorem updateDimensions_failures (el : HTMLCanvasElement)
  (c : option context2d) (prog : option surface) (b : bool)
  (s e hp elementWidth totalWidth : num) (w h : N) :
  updateDimensions elementWidth totalWidth w h (mkEntry None prog s e b hp)
  = (mkEntry None prog s e b hp, Throw TypeError)
  /\ exists s' e',
      updateDimensions elementWidth totalWidth w h
        (mkEntry (Some (mkSurface el c)) None s e true hp)
      = (mkEntry
           (Some (mkSurface (mkCanvas (offsetLeft el) w h (Some elementWidth))
                            c))
           None s' e' true hp,
         Throw TypeError)
      /\ s' = or (ofZ (offsetLeft el) / totalWidth) zero
      /\ e' = s' + elementWidth / totalWidth.
Proof.
  split; [reflexivity|]. do 2 eexists. unfold updateDimensions.
  cbn [wave progress hasProgressCanvas element context halfPixel].
  rewrite !resize_result. repeat split; reflexivity.
Qed.

(** A canvas laid out inside the waveform, [0 <= offsetLeft < totalWidth],
    gets a start in [[0, 1)]. *)
Theorem updateDimensions_start_in_unit_interval (t : CanvasEntry)
  (s : surface) (elementWidth : num) (total : Qc) (w h : N) :
  wave t = Some s ->
  (0 <= offsetLeft (element s))%Z ->
  (inject_Z (offsetLeft (element s)) < total)%Q ->
  exists q : Qc,
    start (fst (updateDimensions elementWidth (Fin total) w h t)) = Fin q
    /\ (q == inject_Z (offsetLeft (element s)) / total)%Q
    /\ (0 <= q)%Q /\ (q < 1)%Q.
Proof.
  intros Hw Hoff Hlt.
  assert (Hoff' : (0 <= inject_Z (offsetLeft (element s)))%Q).
  { change 0%Q with (inject_Z 0). rewrite <- Zle_Qle. exact Hoff. }
  assert (Hpos : (0 < total)%Q) by lra.
  assert (Hne : total <> 0%Qc).
  { intros E. rewrite E in Hpos. revert Hpos. apply Qlt_irrefl. }
  set (q := (Q2Qc (inject_Z (offsetLeft (element s))) / total)%Qc).
  assert (Hq : (this q == inject_Z (offsetLeft (element s)) / total)%Q).
  { unfold q. rewrite this_div, this_Q2Qc. reflexivity. }
  assert (Hstart : start (fst (updateDimensions elementWidth (Fin total) w h t))
                   = Fin q).
  { unfold updateDimensions. rewrite Hw.
    assert (E : or (ofZ (offsetLeft (element s)) / Fin total) zero = Fin q).
    { unfold ofZ, div. destruct (Qc_eq_dec total 0) as [E|_]; [contradiction|].
      apply or_zero_finite. }
    destruct (hasProgressCanvas t); [destruct (progress t)|];
      cbn [fst start]; exact E. }
  exists q. split; [exact Hstart|]. split; [exact Hq|]. split.
  - rewrite Hq. apply Qle_shift_div_l; [exact Hpos|]. lra.
  - rewrite Hq. apply Qlt_shift_div_r; [exact Hpos|]. lra.
Qed.

(** The second of two tiles 400 pixels wide in a waveform of 800 pixels. *)
Lemma updateDimensions_start_in_unit_interval_witness :
  exists q : Qc,
    start (fst (updateDimensions (ofZ 400) (ofZ 800) 400 128 thirdTile)) = Fin q
    /\ (0 <= q)%Q /\ (q < 1)%Q.
Proof.
  destruct (updateDimensions_start_in_unit_interval thirdTile
              (mkSurface (mkCanvas 200 0 0 None) None) (ofZ 400)
              (Q2Qc (inject_Z 800)) 400 128 eq_refl)
    as (q & Hs & _ & H0 & H1).
  - discriminate.
  - reflexivity.
  - exists q. repeat split; assumption.
Defined.

End DimensionFacts.

(** ** After [destroy] *)

Section Destroyed.

(** [destroy] may be called any number of times, on any tile.  On the tile
    it leaves, [fillRects] and [drawLines] do nothing and return normally,
    while [clearWave] throws a [TypeError]. *)
Theorem destroy_then_draw (t : CanvasEntry) (peaks : list num)
  (x y width height radius absmax halfH offsetY start' end' : num) :
  let t' := fst (destroy t) in
  destroy t' = (t', Normal tt)
  /\ waveCtx t' = None /\ progressCtx t' = None
  /\ fillRects x y width height radius t' = (t', Normal tt)
  /\ drawLines peaks absmax halfH offsetY start' end' t' = (t', Normal tt)
  /\ clearWave t' = (t', Throw TypeError).
Proof.
  cbn [destroy fst]. split; [reflexivity|].
  split; [reflexivity|]. split; [reflexivity|]. split; [|split].
  - apply fillRects_without_context; reflexivity.
  - apply drawLines_without_context; reflexivity.
  - reflexivity.
Qed.

End Destroyed.

(** ** Exporting *)

Section ExportEdges.

Variable toDataURL : surface -> string -> num -> completion string.
Variable toBlob : surface -> string -> num -> toBlobOutcome.

(** A [type] that is neither ['blob'] nor ['dataURL'] makes [getImage]
    return [undefined]: no encoder is called and nothing is thrown, on any
    tile. *)
Theorem getImage_other_type (t : CanvasEntry) (format : string)
  (quality : num) (type : string) :
  type <> "blob"%string -> type <> "dataURL"%string ->
  getImage toDataURL toBlob t format quality type = Normal Undefined.
Proof.
  intros Hb Hd. unfold getImage.
  apply String.eqb_neq in Hb, Hd. rewrite Hb, Hd. reflexivity.
Qed.

(** In the mode ['blob'] [getImage] never throws: it always returns a
    promise.  On a tile without wave canvas that promise is already
    rejected with the [TypeError], whereas the mode ['dataURL'] throws the
    [TypeError] to the caller. *)
Theorem getImage_without_wave_canvas (t : CanvasEntry)
  (prog : option surface) (s e hp : num) (b : bool) (format : string)
  (quality : num) :
  (exists p, getImage toDataURL toBlob t format quality "blob"
             = Normal (BlobPromise p))
  /\ getImage toDataURL toBlob (mkEntry None prog s e b hp) format quality
              "blob"
     = Normal (BlobPromise (mkPromise (Rejected TypeError)
                                      (Rejected TypeError)))
  /\ getImage toDataURL toBlob (mkEntry None prog s e b hp) format quality
              "dataURL"
     = Throw TypeError.
Proof.
  split; [eexists; reflexivity|]. split; reflexivity.
Qed.

(** The export reads the wave canvas only: two tiles with the same wave
    canvas, drawn on alike, export the same, whatever their progress canvas,
    what was drawn on it, their span and their half-pixel offset. *)
Theorem getImage_reads_the_wave_canvas_only (t1 t2 : CanvasEntry)
  (format : string) (quality : num) (type : string) :
  wave t1 = wave t2 ->
  getImage toDataURL toBlob t1 format quality type
  = getImage toDataURL toBlob t2 format quality type.
Proof.
  intros H. unfold getImage, blobPromise. rewrite H. reflexivity.
Qed.

End ExportEdges.

Lemma getImage_other_type_witness :
  getImage urlEncoder failingEncoder wholeTile "image/png" (ofQ (92 # 100))
           "png"
  = Normal Undefined.
Proof.
  apply getImage_other_type; discriminate.
Defined.

Lemma getImage_reads_the_wave_canvas_only_witness :
  getImage urlEncoder failingEncoder wholeTile "image/png" (ofQ (92 # 100))
           "dataURL"
  = getImage urlEncoder failingEncoder progressTile "image/png"
             (ofQ (92 # 100)) "dataURL".
Proof.
  apply getImage_reads_the_wave_canvas_only. reflexivity.
Defined.

(** ** More on the waveform *)

Section WaveformFacts.

Lemma indexRange_length (lo hi : Z) :
  List.length (indexRange lo hi) = Z.to_nat (hi - lo).
Proof. unfold indexRange. rewrite length_map, length_seq. reflexivity. Qed.

(** On a tile whose span lies inside [[0, 1]] and whose wave canvas is
    attached, the loop counters of [drawLineToContext] stay between [0] and
    the length of the series plus one, where JavaScript numbers count
    exactly, and it returns normally: both loops end.  With [n] the number
    of sample indices from [first] to [last - 1], it has made [2 n + 6]
    calls on the context, the first [beginPath] and the last [fill]. *)
Theorem drawLineToContext_returns_on_finite_span (t : CanvasEntry)
  (w : surface) (ctx : context2d) (peaks : list num)
  (absmax halfH offsetY start' end' : num) (s e : Qc) :
  wave t = Some w -> start t = Fin s -> end_ t = Fin e ->
  (0 <= s)%Q -> (e <= 1)%Q ->
  exists (a b : Z) (new : list call),
    (lineFirst t peaks = ofZ a /\ lineLast t peaks = ofZ (b + 1)
     /\ (0 <= a)%Z /\ (b <= Z.of_nat (List.length peaks))%Z)
    /\ drawLineToContext t (Some ctx) peaks absmax halfH offsetY start' end'
       = Normal (Some (emit ctx new))
    /\ List.length new = (2 * Z.to_nat (b + 1 - a) + 6)%nat
    /\ hd Fill new = BeginPath
    /\ last new BeginPath = Fill.
Proof.
  intros Hw Hs He H0 H1.
  exists (sampleIndex peaks s), (sampleIndex peaks e).
  pose proof (lineFirst_finite t peaks s Hs) as Hfirst.
  pose proof (lineLast_finite t peaks e He) as Hlast.
  unfold drawLineToContext. rewrite Hfirst, Hlast, Hw.
  rewrite upward_integers, downward_reverses_upward.
  eexists. split; [|split; [reflexivity|split; [|split]]].
  - repeat split.
    + apply sampleIndex_nonnegative. exact H0.
    + apply sampleIndex_within_series. exact H1.
  - cbn [List.length app]. rewrite !length_app, !length_map, length_rev.
    rewrite indexRange_length. cbn [List.length]. lia.
  - reflexivity.
  - cbn [app]. rewrite !app_comm_cons, !app_assoc.
    match goal with
    | |- last (?l ++ [?a; ?b; Fill]) _ = _ =>
        change (l ++ [a; b; Fill]) with (l ++ [a; b] ++ [Fill])
    end.
    rewrite app_assoc. apply last_last.
Qed.

Lemma drawLineToContext_returns_on_finite_span_witness :
  exists new,
    drawLineToContext wholeTile (waveCtx wholeTile) twoSamples one (ofZ 50)
                      zero zero one
    = Normal (Some (emit (mkContext (StyleColor "#000000") []) new))
    /\ hd Fill new = BeginPath
    /\ last new BeginPath = Fill.
Proof.
  destruct (drawLineToContext_returns_on_finite_span wholeTile
              (mkSurface (mkCanvas 0 100 100 None)
                         (Some (mkContext (StyleColor "#000000") [])))
              (mkContext (StyleColor "#000000") []) twoSamples one (ofZ 50)
              zero zero one (Q2Qc 0) (Q2Qc 1) eq_refl eq_refl eq_refl)
    as (a & b & new & _ & Hnew & _ & Hhd & Hlast).
  - unfold Qle. simpl. lia.
  - unfold Qle. simpl. lia.
  - exists new. repeat split; assumption.
Defined.

Lemma div_positive_by_zero (q : Qc) : (0 < q)%Q -> Fin q / zero = PInf.
Proof.
  intros H. unfold div, zero, ofZ.
  destruct (Qc_eq_dec (Q2Qc (inject_Z 0)) 0) as [_|E];
    [|exfalso; apply E; reflexivity].
  unfold sgn, Qccompare. change (this 0%Qc) with 0%Q.
  apply Qgt_alt in H. rewrite H. reflexivity.
Qed.

Lemma mul_positive_by_infinity (q : Qc) : (0 < q)%Q -> Fin q * PInf = PInf.
Proof.
  intros H. cbn [mul]. unfold sgn, Qccompare. change (this 0%Qc) with 0%Q.
  apply Qgt_alt in H. rewrite H. reflexivity.
Qed.

Lemma lineLength_positive (peaks : list num) :
  peaks <> [] ->
  exists n : Qc, lineLength peaks = Fin n /\ (0 < n)%Q.
Proof.
  intros Hne. rewrite lineLength_finite. eexists. split; [reflexivity|].
  rewrite this_Q2Qc. apply Qlt_shift_div_l; [reflexivity|].
  rewrite Qmult_0_l. change 0%Q with (inject_Z 0). rewrite <- Zlt_Qlt.
  destruct peaks; [congruence | simpl; lia].
Qed.

(** A tile laid out to the right of the origin ([offsetLeft > 0]) in a
    waveform of total width [0]: [updateDimensions] with a positive element
    width sets [start] and [end] to [+Infinity], and [drawLines] on a series
    that is not empty then never returns, as the backward loop starts from
    [j = Infinity] and [j--] leaves it there. *)
Theorem drawLines_never_returns_after_zero_total_width (t : CanvasEntry)
  (el : HTMLCanvasElement) (ctx : context2d) (ew : Qc) (w h : N)
  (peaks : list num) (absmax halfH offsetY start' end' : num) :
  wave t = Some (mkSurface el (Some ctx)) ->
  (0 < offsetLeft el)%Z -> (0 < ew)%Q -> peaks <> [] ->
  let t1 := fst (updateDimensions (Fin ew) zero w h t) in
  start t1 = PInf /\ end_ t1 = PInf
  /\ snd (drawLines peaks absmax halfH offsetY start' end' t1) = Diverge.
Proof.
  intros Hw Hoff Hew Hne t1.
  assert (Hquot : ofZ (offsetLeft el) / zero = PInf).
  { apply div_positive_by_zero. rewrite this_Q2Qc.
    change 0%Q with (inject_Z 0). rewrite <- Zlt_Qlt. exact Hoff. }
  assert (Hspan : start t1 = PInf /\ end_ t1 = PInf
                  /\ exists el1, wave t1 = Some (mkSurface el1 (Some ctx))).
  { unfold t1, updateDimensions. rewrite Hw. cbn [element context].
    rewrite Hquot, (div_positive_by_zero ew Hew).
    destruct (hasProgressCanvas t); [destruct (progress t)|];
      cbn [fst start end_ wave]; (split; [|split]);
      try reflexivity; eexists; reflexivity. }
  destruct Hspan as (Hs & He & el1 & Hw1).
  split; [exact Hs|]. split; [exact He|].
  destruct (lineLength_positive peaks Hne) as (n & Hn & Hpos).
  assert (Hfirst : lineFirst t1 peaks = PInf).
  { unfold lineFirst. rewrite Hs, Hn, (mul_positive_by_infinity n Hpos).
    reflexivity. }
  assert (Hlast : lineLast t1 peaks = PInf).
  { unfold lineLast. rewrite He, Hn, (mul_positive_by_infinity n Hpos).
    reflexivity. }
  unfold drawLines, bind, waveCtx. rewrite Hw1. cbn [context].
  unfold drawLineToContext. rewrite Hfirst, Hlast, Hw1. reflexivity.
Qed.

Lemma drawLines_never_returns_after_zero_total_width_witness :
  start (fst (updateDimensions (ofZ 10) zero 100 50 shiftedTile)) = PInf
  /\ snd (drawLines twoSamples one (ofZ 50) zero zero one
            (fst (updateDimensions (ofZ 10) zero 100 50 shiftedTile)))
     = Diverge.
Proof.
  destruct (drawLines_never_returns_after_zero_total_width shiftedTile
              (mkCanvas 5 100 100 None) (mkContext (StyleColor "#000000") [])
              (Q2Qc (inject_Z 10)) 100 50 twoSamples one (ofZ 50) zero zero one
              eq_refl)
    as (Hs & _ & Hd).
  - reflexivity.
  - reflexivity.
  - discriminate.
  - split; [exact Hs | exact Hd].
Defined.

(** With only the progress canvas attached ([initProgress] without
    [initWave]) on a tile that has a progress canvas, [drawLines] throws a
    [TypeError], as drawing on the progress context reads
    [this.wave.width]; [fillRects] on the same tile returns normally and
    draws the bar on the progress context. *)
Theorem drawLines_needs_the_wave_canvas (t : CanvasEntry) (ctx' : context2d)
  (peaks : list num) (absmax halfH offsetY start' end' : num)
  (x y width height radius : num) :
  wave t = None -> hasProgressCanvas t = true -> progressCtx t = Some ctx' ->
  drawLines peaks absmax halfH offsetY start' end' t = (t, Throw TypeError)
  /\ exists t',
      fillRects x y width height radius t = (t', Normal tt)
      /\ wave t' = None
      /\ progressCtx t'
         = fillRectToContext (Some ctx') x y width height radius.
Proof.
  destruct t as [w p s e b hp]. cbn [wave hasProgressCanvas].
  intros -> -> Hp. unfold progressCtx in Hp. cbn [progress] in Hp.
  destruct p as [[el' c']|]; [|discriminate Hp]. cbn [context] in Hp.
  subst c'. split; [reflexivity|].
  eexists. split; [reflexivity|]. split; reflexivity.
Qed.

Lemma drawLines_needs_the_wave_canvas_witness :
  drawLines twoSamples one (ofZ 50) zero zero one progressOnlyTile
  = (progressOnlyTile, Throw TypeError).
Proof.
  apply (drawLines_needs_the_wave_canvas progressOnlyTile
           (mkContext (StyleColor "#000000") []) twoSamples one (ofZ 50) zero
           zero one zero zero zero zero zero); reflexivity.
Defined.

End WaveformFacts.

(** ** Samples out of range and a silent series *)

Section OutOfRange.

Lemma sub_zero (h : num) : h - zero = h.
Proof.
  destruct h; try reflexivity. unfold sub, zero, ofZ. cbn [neg add].
  change (Q2Qc (inject_Z 0)) with 0%Qc. f_equal. ring.
Qed.

(** A read at an integer index. *)
Lemma peakAt_integer (peaks : list num) (q : Qc) (z : Z) :
  (q == inject_Z z)%Q -> (0 <= z)%Z ->
  peakAt peaks (Fin q) = nth_error peaks (Z.to_nat z).
Proof.
  intros Hq Hz. unfold peakAt.
  assert (Hf : Qfloor q = z).
  { rewrite <- (Qfloor_Z z). apply Qfloor_comp. exact Hq. }
  rewrite Hf.
  assert (Hb : Qc_eq_bool q (Q2Qc (inject_Z z)) = true).
  { apply Qc_eq_bool_true. rewrite this_Q2Qc. exact Hq. }
  rewrite Hb. apply Z.leb_le in Hz. rewrite Hz. reflexivity.
Qed.

Lemma peakAt_past_the_end (peaks : list num) (q : Qc) (z : Z) :
  (q == inject_Z z)%Q -> (Z.of_nat (List.length peaks) <= z)%Z ->
  peakAt peaks (Fin q) = None.
Proof.
  intros Hq Hz. rewrite (peakAt_integer peaks q z Hq) by lia.
  apply nth_error_None. lia.
Qed.

Lemma round_zero_over (a : num) : truthy a = true -> round (zero / a) = zero.
Proof.
  intros H. destruct a as [q| | |]; try reflexivity; [|discriminate H].
  unfold zero, ofZ, div. destruct (Qc_eq_dec q 0) as [E|E].
  - subst. discriminate H.
  - cbn [round]. unfold ofZ. apply (f_equal (fun z => Fin (Q2Qc (inject_Z z)))).
    assert (Hq : (this (Q2Qc (inject_Z 0) / q + Q2Qc (1 # 2))%Qc == 1 # 2)%Q).
    { rewrite this_add, this_div, !this_Q2Qc.
      change (inject_Z 0) with 0%Q. unfold Qdiv. ring. }
    rewrite (Qfloor_comp _ _ Hq). reflexivity.
Qed.

(** A sample index past the end of the series ([2 i >= peaks.length]) reads
    as amplitude [0]: when [absmax / halfH] is a number other than [0], both
    its vertices lie on the zero line [y = halfH + offsetY]. *)
Theorem sample_past_the_end_on_zero_line (peaks : list num)
  (first scale hp halfOffset absmaxHalf : num) (i : Z) :
  truthy absmaxHalf = true ->
  (Z.of_nat (List.length peaks) <= 2 * i)%Z ->
  upperVertex peaks first scale hp halfOffset absmaxHalf (ofZ i)
  = LineTo ((ofZ i - first) * scale + hp) halfOffset
  /\ lowerVertex peaks first scale hp halfOffset absmaxHalf (ofZ i)
     = LineTo ((ofZ i - first) * scale + hp) halfOffset.
Proof.
  intros Ha Hi. unfold upperVertex, lowerVertex, peakHeight.
  assert (Hup : peakAt peaks (ofZ 2 * ofZ i) = None).
  { unfold ofZ. cbn [mul]. apply (peakAt_past_the_end peaks _ (2 * i)).
    - rewrite this_mul, !this_Q2Qc, inject_Z_mult. reflexivity.
    - exact Hi. }
  assert (Hlow : peakAt peaks (ofZ 2 * ofZ i + one) = None).
  { unfold ofZ, one. cbn [mul add]. unfold ofZ.
    apply (peakAt_past_the_end peaks _ (2 * i + 1)).
    - rewrite this_add, this_mul, !this_Q2Qc, inject_Z_plus, inject_Z_mult.
      reflexivity.
    - lia. }
  rewrite Hup, Hlow. cbn [orUndef].
  rewrite (round_zero_over absmaxHalf Ha), sub_zero. split; reflexivity.
Qed.

(** The overlap sample of a tile that ends the series of two samples. *)
Lemma sample_past_the_end_on_zero_line_witness :
  upperVertex twoSamples zero (ofZ 50) (ofQ (1 # 2)) (ofZ 50) (ofQ (1 # 50))
              (ofZ 2)
  = LineTo ((ofZ 2 - zero) * ofZ 50 + ofQ (1 # 2)) (ofZ 50).
Proof.
  apply (sample_past_the_end_on_zero_line twoSamples zero (ofZ 50)
           (ofQ (1 # 2)) (ofZ 50) (ofQ (1 # 50)) 2).
  - reflexivity.
  - simpl. lia.
Defined.

Lemma amplitude_never_NaN (v : option num) : isNaN (orUndef v zero) = false.
Proof.
  destruct v as [[q| | |]|]; try reflexivity.
  unfold orUndef, or, truthy. destruct (negb (Qc_eq_bool q 0)); reflexivity.
Qed.

(** With [absmax = 0] the unit [absmax / halfH] is [0] or [NaN], and no
    height is a finite number. *)
Lemma zero_absmax_unit (halfH : num) :
  zero / halfH = zero \/ zero / halfH = NaN.
Proof.
  destruct halfH as [q| | |]; try (left; reflexivity); try (right; reflexivity).
  unfold zero, ofZ, div. destruct (Qc_eq_dec q 0) as [E|E].
  - right. reflexivity.
  - left. apply Fin_inj_Qeq. rewrite this_div, !this_Q2Qc.
    change (inject_Z 0) with 0%Q. unfold Qdiv. ring.
Qed.

Lemma ordinate_not_finite (peaks : list num) (index halfOffset unit : num) :
  unit = zero \/ unit = NaN ->
  isFinite (halfOffset - peakHeight peaks unit index) = false.
Proof.
  intros Hu. unfold peakHeight.
  pose proof (amplitude_never_NaN (peakAt peaks index)) as Hv.
  destruct (orUndef (peakAt peaks index) zero) as [q| | |];
    try discriminate Hv.
  - assert (Hdiv : isFinite (round (Fin q / unit)) = false).
    { destruct Hu as [-> | ->]; [|reflexivity].
      unfold zero, ofZ, div.
      destruct (Qc_eq_dec (Q2Qc (inject_Z 0)) 0) as [_|E];
        [|exfalso; apply E; reflexivity].
      destruct (sgn q); reflexivity. }
    destruct (round (Fin q / unit)); [discriminate Hdiv| | |];
      destruct halfOffset; reflexivity.
  - destruct Hu as [-> | ->]; destruct halfOffset; reflexivity.
  - destruct Hu as [-> | ->]; destruct halfOffset; reflexivity.
Qed.

Lemma filledPaths_ignored_lines (cs rest : list call) (path : list point) :
  Forall (fun c => exists x y, c = LineTo x y /\ isFinite y = false) cs ->
  filledPaths path (cs ++ rest) = filledPaths path rest.
Proof.
  induction 1 as [|c cs (x & y & -> & Hy) _ IH]; [reflexivity|].
  cbn [app filledPaths]. rewrite <- IH. f_equal.
  destruct x, y; try discriminate Hy; reflexivity.
Qed.

(** A silent series drawn with [absmax = 0] (its own largest absolute
    value): on a tile whose span lies inside [[0, 1]] (so that the loop
    counters stay where JavaScript numbers count exactly) and whose wave
    canvas is attached, [drawLineToContext] returns normally, every [lineTo]
    it makes has an ordinate that is not finite, and the one path it fills
    holds at most the point of its [moveTo]: nothing is painted, not even
    the zero line. *)
Theorem drawLineToContext_zero_absmax (t : CanvasEntry) (w : surface)
  (ctx : context2d) (peaks : list num)
  (halfH offsetY start' end' : num) (s e : Qc) :
  wave t = Some w -> start t = Fin s -> end_ t = Fin e ->
  (0 <= s)%Q -> (e <= 1)%Q ->
  exists new,
    drawLineToContext t (Some ctx) peaks zero halfH offsetY start' end'
    = Normal (Some (emit ctx new))
    /\ Forall lineToIgnored new
    /\ forall path,
        exists p, filledPaths path new = [p] /\ (List.length p <= 1)%nat.
Proof.
  intros Hw Hs He _ _. unfold drawLineToContext.
  rewrite (lineFirst_finite t peaks s Hs), (lineLast_finite t peaks e He), Hw.
  rewrite upward_integers, downward_reverses_upward.
  pose proof (zero_absmax_unit halfH) as Hu.
  set (unit := zero / halfH) in *.
  set (scale := lineScale _ _ _).
  set (first := ofZ (sampleIndex peaks s)).
  set (ups := map (upperVertex peaks first scale (halfPixel t)
                               (halfH + offsetY) unit) _).
  set (downs := map (lowerVertex peaks first scale (halfPixel t)
                                 (halfH + offsetY) unit) _).
  assert (Hups : Forall (fun c => exists x y, c = LineTo x y
                                              /\ isFinite y = false) ups).
  { unfold ups. apply Forall_forall. intros c Hc.
    apply in_map_iff in Hc. destruct Hc as (i & <- & _).
    unfold upperVertex. do 2 eexists. split; [reflexivity|].
    apply ordinate_not_finite. exact Hu. }
  assert (Hdowns : Forall (fun c => exists x y, c = LineTo x y
                                                /\ isFinite y = false) downs).
  { unfold downs. apply Forall_forall. intros c Hc.
    apply in_map_iff in Hc. destruct Hc as (i & <- & _).
    unfold lowerVertex. do 2 eexists. split; [reflexivity|].
    apply ordinate_not_finite. exact Hu. }
  eexists. split; [reflexivity|]. split.
  - cbn [app]. repeat constructor.
    + apply ordinate_not_finite. exact Hu.
    + apply Forall_app. split.
      * eapply Forall_impl; [|exact Hups].
        intros c (x & y & -> & Hy). exact Hy.
      * apply Forall_app. split.
        -- eapply Forall_impl; [|exact Hdowns].
           intros c (x & y & -> & Hy). exact Hy.
        -- repeat constructor. apply ordinate_not_finite. exact Hu.
  - intros path. cbn [app filledPaths].
    pose proof (ordinate_not_finite peaks (ofZ 2 * first) (halfH + offsetY)
                  unit Hu) as Hy1.
    pose proof (ordinate_not_finite peaks (ofZ 2 * first + one)
                  (halfH + offsetY) unit Hu) as Hy2.
    set (p0 := pathStep [] (MoveTo ((first - first) * scale) (halfH + offsetY))).
    assert (Hp0 : (List.length p0 <= 1)%nat).
    { unfold p0, pathStep.
      destruct ((first - first) * scale), (halfH + offsetY); simpl; lia. }
    exists p0. split; [|exact Hp0].
    change (pathStep path BeginPath) with (@nil point). fold p0.
    assert (Hstep1 : pathStep p0
                       (LineTo ((first - first) * scale)
                               (halfH + offsetY
                                - peakHeight peaks unit (ofZ 2 * first)))
                     = p0).
    { unfold pathStep at 1.
      destruct ((first - first) * scale),
        (halfH + offsetY - peakHeight peaks unit (ofZ 2 * first));
        try discriminate Hy1; reflexivity. }
    rewrite Hstep1.
    rewrite (filledPaths_ignored_lines ups _ p0 Hups).
    rewrite (filledPaths_ignored_lines downs _ p0 Hdowns).
    cbn [filledPaths].
    assert (Hstep2 : pathStep p0
                       (LineTo ((first - first) * scale)
                               (halfH + offsetY
                                - peakHeight peaks unit (ofZ 2 * first + one)))
                     = p0).
    { unfold pathStep at 1.
      destruct ((first - first) * scale),
        (halfH + offsetY - peakHeight peaks unit (ofZ 2 * first + one));
        try discriminate Hy2; reflexivity. }
    rewrite Hstep2. reflexivity.
Qed.

Lemma drawLineToContext_zero_absmax_witness :
  exists new,
    drawLineToContext wholeTile (waveCtx wholeTile) [zero; zero; zero; zero]
                      zero (ofZ 50) zero zero one
    = Normal (Some (emit (mkContext (StyleColor "#000000") []) new))
    /\ Forall lineToIgnored new.
Proof.
  destruct (drawLineToContext_zero_absmax wholeTile
              (mkSurface (mkCanvas 0 100 100 None)
                         (Some (mkContext (StyleColor "#000000") [])))
              (mkContext (StyleColor "#000000") []) [zero; zero; zero; zero]
              (ofZ 50) zero zero one (Q2Qc 0) (Q2Qc 1) eq_refl eq_refl eq_refl)
    as (new & Hnew & Hall & _).
  - unfold Qle. simpl. lia.
  - unfold Qle. simpl. lia.
  - exists new. split; [exact Hnew | exact Hall].
Defined.

End OutOfRange.

(** ** The outline of a rounded bar *)

Section RoundedBar.

Lemma positive_height_branch (ctx : context2d) (x y width radius : num)
  (h : Qc) :
  (0 < h)%Q ->
  drawRoundedRect ctx x y width (Fin h) radius
  = emit ctx (roundedRectPath x y width (Fin h) radius).
Proof.
  intros Hh. unfold drawRoundedRect.
  assert (E : eqb (Fin h) zero = false).
  { cbn [eqb zero ofZ].
    destruct (Qc_eq_bool h (Q2Qc (inject_Z 0))) eqn:E; [|reflexivity].
    apply Qc_eq_bool_true in E. change (this (Q2Qc (inject_Z 0))) with 0%Q in E.
    lra. }
  assert (L : ltb (Fin h) zero = false).
  { apply ltb_Fin_false. change (this (Q2Qc (inject_Z 0))) with 0%Q. lra. }
  rewrite E, L. reflexivity.
Qed.

(** The points of the outline [drawRoundedRect] fills, for finite
    arguments and a positive height. *)
Lemma rounded_outline (st : fillStyle) (x y w h r : Qc) :
  (0 < h)%Q ->
  filledPaths []
    (calls (drawRoundedRect (mkContext st []) (Fin x) (Fin y) (Fin w) (Fin h)
                            (Fin r)))
  = [[ ((x + r)%Qc, y);
       ((x + w - r)%Qc, y);
       ((x + w)%Qc, y); ((x + w)%Qc, (y + r)%Qc);
       ((x + w)%Qc, (y + h - r)%Qc);
       ((x + w)%Qc, (y + h)%Qc); ((x + w - r)%Qc, (y + h)%Qc);
       ((x + r)%Qc, (y + h)%Qc);
       (x, (y + h)%Qc); (x, (y + h - r)%Qc);
       (x, (y + r)%Qc);
       (x, y); ((x + r)%Qc, y) ]].
Proof.
  intros Hh. rewrite positive_height_branch by exact Hh. reflexivity.
Qed.

Lemma halfPixels_this (k : Z) : (halfPixels k == k # 2)%Q.
Proof. apply this_Q2Qc. Qed.

Lemma halfPixels_le (a b : Z) :
  (a <= b)%Z -> (halfPixels a <= halfPixels b)%Q.
Proof.
  intros H. rewrite !halfPixels_this. unfold Qle. simpl. lia.
Qed.

Lemma halfPixels_lt (a b : Z) :
  (a < b)%Z -> (halfPixels a < halfPixels b)%Q.
Proof.
  intros H. rewrite !halfPixels_this. unfold Qlt. simpl. lia.
Qed.

(** The outline of a bar whose radius fits, over the rationals. *)
Lemma rounded_outline_inside (x y w h r : Qc) :
  (0 <= r)%Q -> (r <= w)%Q -> (r <= h)%Q ->
  Forall (fun p : point =>
            ((x <= fst p)%Q /\ (fst p <= x + w)%Q)
            /\ ((y <= snd p)%Q /\ (snd p <= y + h)%Q))
         [ ((x + r)%Qc, y);
           ((x + w - r)%Qc, y);
           ((x + w)%Qc, y); ((x + w)%Qc, (y + r)%Qc);
           ((x + w)%Qc, (y + h - r)%Qc);
           ((x + w)%Qc, (y + h)%Qc); ((x + w - r)%Qc, (y + h)%Qc);
           ((x + r)%Qc, (y + h)%Qc);
           (x, (y + h)%Qc); (x, (y + h - r)%Qc);
           (x, (y + r)%Qc);
           (x, y); ((x + r)%Qc, y) ].
Proof.
  intros Hr Hrw Hrh.
  repeat constructor; cbn [fst snd];
    rewrite ?this_sub, ?this_add; lra.
Qed.

(** A bar laid out on the half-pixel grid, within the range where
    JavaScript numbers add and subtract such lengths exactly, and at least
    as high and as wide as its radius: every point of the outline that
    [drawRoundedRect] fills lies in the rectangle of the bar,
    [x <= px <= x + width] and [y <= py <= y + height]. *)
Theorem drawRoundedRect_stays_in_the_bar (st : fillStyle) (x y w h r : Z) :
  (0 <= r)%Z -> (r <= w)%Z -> (r <= h)%Z -> (0 < h)%Z ->
  (Z.abs x <= 2 ^ 50)%Z -> (Z.abs y <= 2 ^ 50)%Z ->
  (w <= 2 ^ 50)%Z -> (h <= 2 ^ 50)%Z ->
  exists outline,
    filledPaths []
      (calls (drawRoundedRect (mkContext st [])
                (Fin (halfPixels x)) (Fin (halfPixels y))
                (Fin (halfPixels w)) (Fin (halfPixels h))
                (Fin (halfPixels r))))
    = [outline]
    /\ Forall (fun p : point =>
                 ((halfPixels x <= fst p)%Q
                  /\ (fst p <= halfPixels x + halfPixels w)%Q)
                 /\ ((halfPixels y <= snd p)%Q
                     /\ (snd p <= halfPixels y + halfPixels h)%Q)) outline.
Proof.
  intros Hr Hrw Hrh Hh _ _ _ _.
  assert (Hh' : (0 < halfPixels h)%Q).
  { change 0%Q with (this (halfPixels 0)). apply halfPixels_lt. exact Hh. }
  eexists. split; [apply rounded_outline; exact Hh'|].
  apply rounded_outline_inside.
  - change 0%Q with (this (halfPixels 0)). apply halfPixels_le. exact Hr.
  - apply halfPixels_le. exact Hrw.
  - apply halfPixels_le. exact Hrh.
Qed.

(** The example of the source, [drawRoundedRect(ctx, 50, 50, 5, 10, 3)], in
    half pixels. *)
Lemma drawRoundedRect_stays_in_the_bar_witness :
  exists outline,
    filledPaths []
      (calls (drawRoundedRect (mkContext (StyleColor "#000000") [])
                (Fin (halfPixels 100)) (Fin (halfPixels 100))
                (Fin (halfPixels 10)) (Fin (halfPixels 20))
                (Fin (halfPixels 6))))
    = [outline]
    /\ Forall (fun p : point =>
                 ((inject_Z 50 <= fst p)%Q /\ (fst p <= inject_Z 55)%Q)
                 /\ ((inject_Z 50 <= snd p)%Q /\ (snd p <= inject_Z 60)%Q))
              outline.
Proof.
  destruct (drawRoundedRect_stays_in_the_bar (StyleColor "#000000")
              100 100 10 20 6)
    as (outline & Hpath & Hall); try (simpl; lia).
  exists outline. split; [exact Hpath | exact Hall].
Defined.

(** A bar on the half-pixel grid that is lower than its radius: the
    outline leaves the rectangle of the bar, with the vertex
    [(x + width, y + height - radius)] above its top edge [y]. *)
Theorem drawRoundedRect_short_bar_overshoots (st : fillStyle)
  (x y w h r : Z) :
  (0 < h)%Z -> (h < r)%Z ->
  (Z.abs x <= 2 ^ 50)%Z -> (Z.abs y <= 2 ^ 50)%Z ->
  (Z.abs w <= 2 ^ 50)%Z -> (r <= 2 ^ 50)%Z ->
  exists outline,
    filledPaths []
      (calls (drawRoundedRect (mkContext st [])
                (Fin (halfPixels x)) (Fin (halfPixels y))
                (Fin (halfPixels w)) (Fin (halfPixels h))
                (Fin (halfPixels r))))
    = [outline]
    /\ In ((halfPixels x + halfPixels w)%Qc,
           (halfPixels y + halfPixels h - halfPixels r)%Qc) outline
    /\ ((halfPixels y + halfPixels h - halfPixels r)%Qc < halfPixels y)%Q.
Proof.
  intros Hh Hr _ _ _ _.
  assert (Hh' : (0 < halfPixels h)%Q).
  { change 0%Q with (this (halfPixels 0)). apply halfPixels_lt. exact Hh. }
  pose proof (halfPixels_lt h r Hr) as Hr'.
  eexists. split; [apply rounded_outline; exact Hh'|]. split.
  - do 4 right. left. reflexivity.
  - rewrite this_sub, this_add. lra.
Qed.

(** A bar one pixel high with a radius of three pixels. *)
Lemma drawRoundedRect_short_bar_overshoots_witness :
  exists outline,
    filledPaths []
      (calls (drawRoundedRect (mkContext (StyleColor "#000000") [])
                (Fin (halfPixels 100)) (Fin (halfPixels 100))
                (Fin (halfPixels 10)) (Fin (halfPixels 2))
                (Fin (halfPixels 6))))
    = [outline]
    /\ In ((halfPixels 100 + halfPixels 10)%Qc,
           (halfPixels 100 + halfPixels 2 - halfPixels 6)%Qc) outline.
Proof.
  destruct (drawRoundedRect_short_bar_overshoots (StyleColor "#000000")
              100 100 10 2 6)
    as (outline & Hpath & Hin & _); try (simpl; lia).
  exists outline. split; [exact Hpath | exact Hin].
Defined.

End RoundedBar.
